(** * Parthenon task lists: dependency identifiers and the scan-execute-retire loop

    A shallow embedding of [task_list/tasks.hpp] (classes [TaskID], [BaseTask]
    and [TaskList]) and of the polling task bodies of
    [interface/container.hpp], together with the properties of the scheduler
    that the specification states about them. *)

From Stdlib Require Import List NArith Bool Arith Lia.
Import ListNotations.

Set Implicit Arguments.

(** ** Status enumerations *)

(** Modelled from the spec: [TaskStatus] is declared in [basic_types.hpp],
    which is not part of the sources at hand.  Section 4.2 gives a task
    invocation exactly two results, and the task bodies of [container.hpp]
    return no other. *)
Inductive TaskStatus : Set := complete | incomplete.

(** [enum class TaskListStatus { running, stuck, complete, nothing_to_do }] *)
Module TaskListStatus.
Inductive t : Set := running | stuck | complete | nothing_to_do.
End TaskListStatus.

(** ** Dependency identifiers *)

Module TaskID.

(** [#define BITBLOCK 16] *)
Definition BITBLOCK : N := 16.

(** [std::vector<std::bitset<BITBLOCK>> bitblocks]: one [N] per block,
    block 0 first, bit 0 of a block its least significant bit. *)
Record t : Set := Build { bitblocks : list N }.

(** Modelled from the spec: the member functions of [TaskID] are declared in
    [tasks.hpp] and defined in a file that is not part of the sources at
    hand.  [Set_] follows section 4.1: index [0] gives the zero-bit
    identifier, an index [id >= 1] sets exactly the bit of that index
    (1-based), in as many blocks as the index needs. *)
Definition Set_ (id : N) : t :=
  match id with
  | 0%N => Build [0%N]
  | _ =>
      let pos := (id - 1)%N in
      Build (repeat 0%N (N.to_nat (pos / BITBLOCK))
               ++ [N.shiftl 1 (pos mod BITBLOCK)])
  end.

(** [TaskID() { Set(0); }] *)
Definition empty : t := Set_ 0.

(** Modelled from the spec: [clear] is what [TaskList::Reset] calls on the
    completed-set; afterwards no bit is set.  The blocks stay allocated. *)
Definition clear (self : t) : t :=
  Build (map (fun _ => 0%N) (bitblocks self)).

(** Modelled from the spec: no bit is set in any of the blocks
    ([bitset::none] on each); what zero-padding asks of the blocks the
    shorter operand lacks. *)
Definition all_zero (bs : list N) : bool := forallb (N.eqb 0) bs.

(** Modelled from the spec: "every bit set in the dependency must also be
    set in the completed-set", block by block. *)
Fixpoint subset_blocks (mine rhs : list N) : bool :=
  match mine, rhs with
  | _, [] => true
  | [], _ :: _ => all_zero rhs
  | m :: mine', r :: rhs' => N.eqb (N.land m r) r && subset_blocks mine' rhs'
  end.

(** Modelled from the spec: [self.CheckDependencies(rhs)] is the
    satisfaction check of section 4.1, with [self] the completed-set and
    [rhs] the dependency: every bit set in [rhs] is set in [self]; blocks
    that [self] lacks count as zero. *)
Definition CheckDependencies (self rhs : t) : bool :=
  subset_blocks (bitblocks self) (bitblocks rhs).

(** Modelled from the spec: "bitwise OR across all underlying blocks",
    the longer operand giving the length. *)
Fixpoint or_blocks (a b : list N) : list N :=
  match a, b with
  | [], _ => b
  | _, [] => a
  | x :: a', y :: b' => N.lor x y :: or_blocks a' b'
  end.

(** Modelled from the spec: [self.SetFinished(rhs)] ORs the bits of [rhs]
    into [self], growing [self] when [rhs] has more blocks. *)
Definition SetFinished (self rhs : t) : t :=
  Build (or_blocks (bitblocks self) (bitblocks rhs)).

(** Modelled from the spec: [operator|] is the bitwise OR across all
    blocks, the shorter operand grown so that no bit is lost. *)
Definition union (self rhs : t) : t :=
  Build (or_blocks (bitblocks self) (bitblocks rhs)).

(** Modelled from the spec: "bitwise equality across block sequences of
    possibly different lengths". *)
Fixpoint eq_blocks (a b : list N) : bool :=
  match a, b with
  | [], _ => all_zero b
  | _ :: _, [] => all_zero a
  | x :: a', y :: b' => N.eqb x y && eq_blocks a' b'
  end.

(** Modelled from the spec: [operator==] is bitwise equality, the shorter
    block sequence treated as zero-padded. *)
Definition eqb (self rhs : t) : bool :=
  eq_blocks (bitblocks self) (bitblocks rhs).

(** *** Reading a single bit

    [bit x blk off] is bit [off] of block [blk]; blocks beyond the end of
    the vector read as zero.  [has x k] says that the identity of index
    [k >= 1] is a member of [x]. *)
Definition bit (x : t) (blk : nat) (off : N) : bool :=
  N.testbit (nth blk (bitblocks x) 0%N) off.

Definition has (x : t) (k : N) : bool :=
  bit x (N.to_nat ((k - 1) / BITBLOCK)) ((k - 1) mod BITBLOCK).

(** Every bit of [d] is a bit of [c]. *)
Definition subset (d c : t) : Prop :=
  forall blk off, bit d blk off = true -> bit c blk off = true.

(** [a] and [b] have the same bits. *)
Definition equiv (a b : t) : Prop :=
  forall blk off, bit a blk off = bit b blk off.

(** A block is a [std::bitset<16>]: no bit at offset 16 or above. *)
Definition wf (x : t) : Prop :=
  Forall (fun b => (b < 2 ^ BITBLOCK)%N) (bitblocks x).

End TaskID.

Infix "|'" := TaskID.union (at level 50, left associativity).

(** ** Tasks *)

Module BaseTask.
Section Def.
(** [W] is everything a task body acts on: the mesh block, its data
    containers and communication buffers.  The scheduler never looks
    inside. *)
Variable W : Type.

(** The [std::function] a task holds, with the arguments its subclass
    binds to it ([SimpleTask], [BlockTask], [BlockStageTask], ... differ
    only in those). *)
Definition TaskFunc : Type := W -> TaskStatus * W.

Record t : Type := Build {
  _myid : TaskID.t;
  _dep : TaskID.t;
  _func : TaskFunc;
  _complete : bool
}.

(** [BaseTask(TaskID id, TaskID dep)], with [_complete = false] *)
Definition make (id : TaskID.t) (func : TaskFunc) (dep : TaskID.t) : t :=
  Build id dep func false.

Definition GetID (task : t) : TaskID.t := _myid task.
Definition GetDependency (task : t) : TaskID.t := _dep task.
Definition SetComplete (task : t) : t :=
  Build (_myid task) (_dep task) (_func task) true.
Definition IsComplete (task : t) : bool := _complete task.

(** [operator()] *)
Definition call (task : t) (w : W) : TaskStatus * W := _func task w.
End Def.
End BaseTask.

(** ** The polling bodies of [ContainerUtils] *)

Module ContainerUtils.
Section Def.
Variable W : Type.
(** [Container<T>::ReceiveBoundaryBuffers] is defined outside the sources
    at hand: whether all buffers have arrived, and the container after
    the attempt. *)
Variable ReceiveBoundaryBuffers : W -> bool * W.

(** [if (!rc.ReceiveBoundaryBuffers()) return TaskStatus::incomplete;
    return TaskStatus::complete;] *)
Definition ReceiveBoundaryBuffersTask : BaseTask.TaskFunc W :=
  fun rc =>
    let (arrived, rc') := ReceiveBoundaryBuffers rc in
    if negb arrived then (incomplete, rc') else (complete, rc').
End Def.
End ContainerUtils.

(** ** Task lists *)

Module TaskList.
Section Def.
Variable W : Type.

(** A [TaskList *]. *)
Definition Ptr : Set := nat.

(** [_tasks_added] is an [int] that counts from 0 upwards: a natural
    number here, within [INT_MAX] as long as the increment of [AddTask] is
    defined. *)
Record t : Type := Build {
  _task_list : list (BaseTask.t W);
  _tasks_added : N;
  _dependencies : list Ptr;
  _tasks_completed : TaskID.t
}.

(** A default-constructed list. *)
Definition init : t := Build [] 0 [] TaskID.empty.

(** What the pointers of [_dependencies] point to; [None] for a pointer
    to no live list. *)
Definition Heap : Type := Ptr -> option t.

Definition IsComplete (self : t) : bool :=
  match _task_list self with [] => true | _ :: _ => false end.

Definition Size (self : t) : nat := length (_task_list self).

Definition Reset (self : t) : t :=
  Build [] 0 [] (TaskID.clear (_tasks_completed self)).

Fixpoint IsReady_loop (heap : Heap) (deps : list Ptr) : option bool :=
  match deps with
  | [] => Some true
  | l :: deps' =>
      match heap l with
      | None => None
      | Some lst =>
          if negb (IsComplete lst) then Some false
          else IsReady_loop heap deps'
      end
  end.

(** [None] when a registered pointer is dangling. *)
Definition IsReady (heap : Heap) (self : t) : option bool :=
  IsReady_loop heap (_dependencies self).

Definition MarkTaskComplete (self : t) (id : TaskID.t) : t :=
  Build (_task_list self) (_tasks_added self) (_dependencies self)
        (TaskID.SetFinished (_tasks_completed self) id).

Definition ClearComplete (self : t) : t :=
  Build (filter (fun task => negb (BaseTask.IsComplete task)) (_task_list self))
        (_tasks_added self) (_dependencies self) (_tasks_completed self).

(** One entry of the invocation log of a scan: the task as it was when
    invoked, the completed-set its dependency was checked against, and
    the status its body returned.  The log is not in the source; it
    records what the loop of [DoAvailable] does, in order. *)
Record Event : Type := Ev {
  ev_task : BaseTask.t W;
  ev_seen : TaskID.t;
  ev_status : TaskStatus
}.

(** The variables the loop of [DoAvailable] updates. *)
Record Loop (A : Type) : Type := MkLoop {
  l_tasks : A;
  l_completed : TaskID.t;
  l_world : W;
  l_trace : list Event
}.

(** The body of the [for] loop of [DoAvailable], on one task:
    [task->SetComplete()] flags the task in place, and
    [MarkTaskComplete(task->GetID())] is [SetFinished] on the
    completed-set. *)
Definition visit (task : BaseTask.t W) (completed : TaskID.t) (w : W)
  : Loop (BaseTask.t W) :=
  let dep := BaseTask.GetDependency task in
  if TaskID.CheckDependencies completed dep then
    let (status, w') := BaseTask.call task w in
    match status with
    | complete =>
        MkLoop (BaseTask.SetComplete task)
               (TaskID.SetFinished completed (BaseTask.GetID task))
               w' [Ev task completed status]
    | incomplete =>
        MkLoop task completed w' [Ev task completed status]
    end
  else MkLoop task completed w [].

(** [for (auto &task : _task_list) { ... }] *)
Fixpoint scan (tasks : list (BaseTask.t W)) (completed : TaskID.t) (w : W)
  : Loop (list (BaseTask.t W)) :=
  match tasks with
  | [] => MkLoop [] completed w []
  | task :: rest =>
      let v := visit task completed w in
      let r := scan rest (l_completed v) (l_world v) in
      MkLoop (l_tasks v :: l_tasks r) (l_completed r) (l_world r)
             (l_trace v ++ l_trace r)
  end.

(** What a call of [DoAvailable] leaves and returns. *)
Record Result : Type := MkResult {
  r_list : t;
  r_world : W;
  r_status : TaskListStatus.t;
  r_trace : list Event
}.

Definition DoAvailable (self : t) (w : W) : Result :=
  let s := scan (_task_list self) (_tasks_completed self) w in
  let self' :=
    ClearComplete (Build (l_tasks s) (_tasks_added self)
                         (_dependencies self) (l_completed s)) in
  MkResult self' (l_world s)
           (if IsComplete self' then TaskListStatus.complete
            else TaskListStatus.running)
           (l_trace s).

(** [AddTask<T>(func, dep, ...)]: the identity minted and the list with
    the task appended. *)
Definition AddTask (self : t) (func : BaseTask.TaskFunc W) (dep : TaskID.t)
  : TaskID.t * t :=
  let id := TaskID.Set_ (_tasks_added self + 1) in
  (id,
   Build (_task_list self ++ [BaseTask.make id func dep])
         (_tasks_added self + 1) (_dependencies self)
         (_tasks_completed self)).

(** *** Driving a list

    [poll n self w] is the state after [n] successive calls of
    [DoAvailable]; [nth_call n self w] is the call made in that state,
    the [(n+1)]-th. *)
Fixpoint poll (n : nat) (self : t) (w : W) : t * W :=
  match n with
  | O => (self, w)
  | S n' =>
      let r := DoAvailable self w in
      poll n' (r_list r) (r_world r)
  end.

Definition nth_call (n : nat) (self : t) (w : W) : Result :=
  DoAvailable (fst (poll n self w)) (snd (poll n self w)).

(** A caller: a sequence of [AddTask] and [DoAvailable] calls on one
    list.  The arguments of an [AddTask] may be computed from the
    identities returned by the earlier ones. *)
Inductive Call : Type :=
| CallAddTask (args : list TaskID.t -> BaseTask.TaskFunc W * TaskID.t)
| CallDoAvailable.

Record Driver : Type := MkDriver {
  d_list : t;
  d_world : W;
  d_ids : list TaskID.t;
  d_statuses : list TaskListStatus.t;
  d_trace : list Event
}.

Definition start (self : t) (w : W) : Driver := MkDriver self w [] [] [].

Definition exec (d : Driver) (c : Call) : Driver :=
  match c with
  | CallAddTask args =>
      let (func, dep) := args (d_ids d) in
      let (id, self') := AddTask (d_list d) func dep in
      MkDriver self' (d_world d) (d_ids d ++ [id]) (d_statuses d) (d_trace d)
  | CallDoAvailable =>
      let r := DoAvailable (d_list d) (d_world d) in
      MkDriver (r_list r) (r_world r) (d_ids d)
               (d_statuses d ++ [r_status r]) (d_trace d ++ r_trace r)
  end.

Definition execute (d : Driver) (calls : list Call) : Driver :=
  fold_left exec calls d.

Definition is_AddTask (c : Call) : bool :=
  match c with CallAddTask _ => true | CallDoAvailable => false end.
End Def.
End TaskList.

(** ** Notions used to state the properties of the scheduler *)

Module Sched.
Section Def.
Variable W : Type.
Local Abbreviation Task := (BaseTask.t W).
Local Abbreviation Event := (TaskList.Event W).

(** No pending task carries the completion flag: the state in which
    every public operation of [TaskList] leaves the list. *)
Definition clean (self : TaskList.t W) : Prop :=
  Forall (fun task : Task => BaseTask.IsComplete task = false)
         (TaskList._task_list self).

(** A pending task one bit of whose dependency is neither completed nor
    carried by the identity of any pending task: what stays true of an
    orphan from call to call. *)
Definition orphaned (task : Task) (blk : nat) (off : N) (self : TaskList.t W)
  : Prop :=
  clean self /\
  In task (TaskList._task_list self) /\
  TaskID.bit (TaskList._tasks_completed self) blk off = false /\
  (forall t0 : Task, In t0 (TaskList._task_list self) ->
                     TaskID.bit (BaseTask.GetID t0) blk off = false).

(** What one logged invocation does to the completed-set. *)
Definition mark (completed : TaskID.t) (e : Event) : TaskID.t :=
  match TaskList.ev_status e with
  | complete =>
      TaskID.SetFinished completed (BaseTask.GetID (TaskList.ev_task e))
  | incomplete => completed
  end.

(** The completed-set after the invocations of a log, starting from
    [completed]: the identities of the tasks that returned [complete],
    marked in order. *)
Definition completed_after (tr : list Event) (completed : TaskID.t)
  : TaskID.t :=
  fold_left mark tr completed.

(** The log accounts for every invocation: running the bodies of its
    entries in order from state [w] returns the statuses it records and
    ends in state [w']. *)
Fixpoint replays (log : list Event) (w w' : W) : Prop :=
  match log with
  | [] => w' = w
  | e :: log' =>
      fst (BaseTask.call (TaskList.ev_task e) w) = TaskList.ev_status e /\
      replays log' (snd (BaseTask.call (TaskList.ev_task e) w)) w'
  end.

(** [Retire before log after]: going through the pending tasks [before]
    in order, each one either is not invoked and stays, or is invoked,
    returns [incomplete] and stays, or is invoked, returns [complete] and
    is gone from [after]; [log] lists the invocations in order. *)
Inductive Retire : list Task -> list Event -> list Task -> Prop :=
| Retire_nil : Retire [] [] []
| Retire_skip task before log after :
    Retire before log after ->
    Retire (task :: before) log (task :: after)
| Retire_retry task seen before log after :
    Retire before log after ->
    Retire (task :: before) (TaskList.Ev task seen incomplete :: log)
           (task :: after)
| Retire_done task seen before log after :
    Retire before log after ->
    Retire (task :: before) (TaskList.Ev task seen complete :: log) after.

(** Two lists that differ at most in how many zero blocks their
    completed-sets carry. *)
Definition same (a b : TaskList.t W) : Prop :=
  TaskList._task_list a = TaskList._task_list b /\
  TaskList._tasks_added a = TaskList._tasks_added b /\
  TaskList._dependencies a = TaskList._dependencies b /\
  TaskID.equiv (TaskList._tasks_completed a) (TaskList._tasks_completed b).

(** The identities of indices [1], ..., [n], in order. *)
Definition minted (n : nat) : list TaskID.t :=
  map (fun k => TaskID.Set_ (N.of_nat k)) (seq 1 n).

(** How many of the calls are [AddTask] calls. *)
Definition added (calls : list (TaskList.Call W)) : nat :=
  length (filter (@TaskList.is_AddTask W) calls).

(** Two log entries for the same task with the same result. *)
Definition same_event (e1 e2 : Event) : Prop :=
  TaskList.ev_task e1 = TaskList.ev_task e2 /\
  TaskList.ev_status e1 = TaskList.ev_status e2 /\
  TaskID.equiv (TaskList.ev_seen e1) (TaskList.ev_seen e2).

(** *** Polling tasks

    [polls] reads off the state how many times the body of the task under
    study has been invoked.  A task is [quiet] when its body leaves that
    count alone. *)
Definition quiet (polls : W -> nat) (task : Task) : Prop :=
  forall w, polls (snd (BaseTask.call task w)) = polls w.

(** The body of [task] returns [incomplete] on its first [n] invocations
    and [complete] on invocation [n + 1], [polls] counting them. *)
Definition polling (polls : W -> nat) (n : nat) (task : Task) : Prop :=
  (forall w, polls (snd (BaseTask.call task w)) = S (polls w)) /\
  (forall w, polls w < n -> fst (BaseTask.call task w) = incomplete) /\
  (forall w, polls w = n -> fst (BaseTask.call task w) = complete).

(** The log holds one invocation of [task], with result [status]. *)
Definition invoked_once (task : Task) (status : TaskStatus) (log : list Event)
  : Prop :=
  exists log1 seen log2,
    log = log1 ++ TaskList.Ev task seen status :: log2 /\
    forall e, In e (log1 ++ log2) -> TaskList.ev_task e <> task.

(** [task] is pending with its dependency satisfied, among tasks that all
    satisfy [others]. *)
Definition waiting (others : Task -> Prop) (task : Task) (self : TaskList.t W)
  : Prop :=
  clean self /\
  TaskID.CheckDependencies (TaskList._tasks_completed self)
                           (BaseTask.GetDependency task) = true /\
  exists earlier later,
    TaskList._task_list self = earlier ++ task :: later /\
    Forall others (earlier ++ later).

(** Only tasks that satisfy [others] are pending. *)
Definition retired (others : Task -> Prop) (self : TaskList.t W) : Prop :=
  clean self /\ Forall others (TaskList._task_list self).

(** Two callers that have seen the same identities, statuses and
    invocations and hold lists that behave alike. *)
Definition same_driver (d1 d2 : TaskList.Driver W) : Prop :=
  same (TaskList.d_list d1) (TaskList.d_list d2) /\
  TaskList.d_world d1 = TaskList.d_world d2 /\
  TaskList.d_ids d1 = TaskList.d_ids d2 /\
  TaskList.d_statuses d1 = TaskList.d_statuses d2 /\
  Forall2 same_event (TaskList.d_trace d1) (TaskList.d_trace d2).
End Def.
End Sched.

(** ** Task lists of the scenarios *)

Module Scenario.

(** A body of local computation: done at its first invocation, whatever
    the state. *)
Definition always_complete (W : Type) : BaseTask.TaskFunc W :=
  fun w => (complete, w).

(** Scenario C: the only task depends on the identity of index 5, which no
    [AddTask] of this list has minted. *)
Definition orphan : TaskList.t unit :=
  snd (TaskList.AddTask (TaskList.init unit) (@always_complete unit)
                        (TaskID.Set_ 5)).

(** A task without dependency followed by one that depends on it. *)
Definition chain : TaskList.t unit :=
  let (id1, l1) :=
    TaskList.AddTask (TaskList.init unit) (@always_complete unit) TaskID.empty in
  snd (TaskList.AddTask l1 (@always_complete unit) id1).

(** Scenario B.  The state is the number of polls of the receive so far, and
    the buffers have arrived at the third poll. *)
Definition arrives_at_third_poll : nat -> bool * nat :=
  fun polls => (2 <=? polls, S polls).

Definition receive : BaseTask.TaskFunc nat :=
  ContainerUtils.ReceiveBoundaryBuffersTask arrives_at_third_poll.

Definition exchange : TaskList.t nat :=
  let (id1, l1) := TaskList.AddTask (TaskList.init nat) receive TaskID.empty in
  snd (TaskList.AddTask l1 (@always_complete nat) id1).

(** Scenario A. *)
Definition three : TaskList.t unit :=
  let a1 :=
    TaskList.AddTask (TaskList.init unit) (@always_complete unit) TaskID.empty in
  let a2 := TaskList.AddTask (snd a1) (@always_complete unit) (fst a1) in
  snd (TaskList.AddTask (snd a2) (@always_complete unit) (fst a1 |' fst a2)).

(** A caller that adds a task without dependency and polls once. *)
Definition caller : list (TaskList.Call unit) :=
  [TaskList.CallAddTask (fun _ => (@always_complete unit, TaskID.empty));
   TaskList.CallDoAvailable unit].

(** The arguments of its next [AddTask]: a task that depends on the first
    identity returned. *)
Definition after_first (ids : list TaskID.t)
  : BaseTask.TaskFunc unit * TaskID.t :=
  (@always_complete unit, hd TaskID.empty ids).

(** A list gated by the barrier list at address 7, which is not drained. *)
Definition gated : TaskList.t unit :=
  TaskList.Build [] 0 [7] TaskID.empty.

Definition heap : TaskList.Heap unit :=
  fun l => if Nat.eqb l 7 then Some orphan else None.

End Scenario.

(** [INT_MAX] of the [int] that counts the tasks added. *)
Definition INT_MAX : N := 2147483647.

(** ** Further notions on scans *)

Module Progress.
Section Def.
Variable W : Type.
Local Abbreviation Task := (BaseTask.t W).
Local Abbreviation Event := (TaskList.Event W).

(** How many invocations of a log returned [complete]. *)
Definition completions (log : list Event) : nat :=
  length (filter (fun e => match TaskList.ev_status e with
                           | complete => true
                           | incomplete => false
                           end) log).

(** No pending task has its dependency satisfied. *)
Definition stalled (self : TaskList.t W) : Prop :=
  forall task : Task,
    In task (TaskList._task_list self) ->
    TaskID.CheckDependencies (TaskList._tasks_completed self)
                             (BaseTask.GetDependency task) = false.

(** The dependency of each task is satisfied by [completed] with the
    identities of the tasks before it in the list marked. *)
Fixpoint forward (completed : TaskID.t) (tasks : list Task) : Prop :=
  match tasks with
  | [] => True
  | task :: rest =>
      TaskID.CheckDependencies completed (BaseTask.GetDependency task) = true /\
      forward (TaskID.SetFinished completed (BaseTask.GetID task)) rest
  end.

(** The completed-set with the identities of [tasks] marked, in order. *)
Definition all_marked (completed : TaskID.t) (tasks : list Task) : TaskID.t :=
  fold_left (fun c task => TaskID.SetFinished c (BaseTask.GetID task))
            tasks completed.

(** Every registered barrier list is live and drained. *)
Definition barriers_drained (heap : TaskList.Heap W) (deps : list TaskList.Ptr)
  : Prop :=
  forall l, In l deps ->
    exists lst, heap l = Some lst /\ TaskList._task_list lst = [].

(** Whether an invocation returned [complete]. *)
Definition completed_event (e : Event) : bool :=
  match TaskList.ev_status e with complete => true | incomplete => false end.

(** The identity [AddTask] hands out at its [k]-th call. *)
Definition mint (k : nat) : TaskID.t := TaskID.Set_ (N.of_nat k).

(** The books of a list: the pending tasks carry, in order, the identities
    of the indices [ks], which are distinct and within the number of tasks
    added; and the completed-set holds exactly the indices handed out that
    are not among them. *)
Definition ledger (ks : list nat) (self : TaskList.t W) : Prop :=
  Forall (fun task : Task => BaseTask.IsComplete task = false)
         (TaskList._task_list self) /\
  map (@BaseTask.GetID W) (TaskList._task_list self) = map mint ks /\
  NoDup ks /\
  Forall (fun k => 1 <= k <= N.to_nat (TaskList._tasks_added self)) ks /\
  forall k, 1 <= k ->
    (TaskID.has (TaskList._tasks_completed self) (N.of_nat k) = true <->
     k <= N.to_nat (TaskList._tasks_added self) /\ ~ In k ks).
End Def.
End Progress.

(** ** Further task lists *)

Module Inputs.

(** A cycle of length one: the only task depends on its own identity. *)
Definition cyclic : TaskList.t unit :=
  snd (TaskList.AddTask (TaskList.init unit) (@Scenario.always_complete unit)
                        (TaskID.Set_ 1)).

(** A list gated by two barrier lists, the first drained, the second
    not, and a heap that holds them. *)
Definition two_barriers : TaskList.t unit :=
  TaskList.Build [] 0 [3; 7] TaskID.empty.

Definition barrier_heap : TaskList.Heap unit :=
  fun l => if Nat.eqb l 3 then Some (TaskList.init unit)
           else if Nat.eqb l 7 then Some Scenario.orphan
           else None.

End Inputs.

(** ** Named variables: [std::map], [Container] and the label registry *)

From Stdlib Require String Ascii OrderedTypeEx Sorted.
From Stdlib Require Import ZArith.
Import String.StringSyntax Ascii.AsciiSyntax.
Delimit Scope string_scope with string.
Delimit Scope char_scope with char.

(** A call that returns or throws [std::invalid_argument]. *)
Inductive Throws (A : Type) : Type :=
| Returns (a : A)
| invalid_argument (what : String.string).
Arguments Returns {A} a.
Arguments invalid_argument {A} what.

(** [std::map<std::string, V>]: the entries in the order of iteration, which
    is that of the keys under [std::string]'s [operator<] (lexicographic on
    the character codes). *)
Module StdMap.
Section Def.
Variable V : Type.

Definition t : Type := list (String.string * V).

Definition empty : t := [].

(** [m.find(k)]: the value of the entry with key [k], [None] for
    [m.end()]. *)
Fixpoint find (k : String.string) (m : t) : option V :=
  match m with
  | [] => None
  | (k', v) :: m' => if String.eqb k k' then Some v else find k m'
  end.

(** [m[k] = v]: the entry with key [k] is overwritten, or inserted at its
    place in the order. *)
Fixpoint assign (k : String.string) (v : V) (m : t) : t :=
  match m with
  | [] => [(k, v)]
  | (k', v') :: m' =>
      match String.compare k k' with
      | Lt => (k, v) :: m
      | Eq => (k, v) :: m'
      | Gt => (k', v') :: assign k v m'
      end
  end.

(** The keys in the order of iteration. *)
Definition keys (m : t) : list String.string := map fst m.

(** The keys are strictly increasing: what every map built by [assign]
    from [empty] satisfies. *)
Definition sorted (m : t) : Prop :=
  Sorted.StronglySorted OrderedTypeEx.String_as_OT.lt (keys m).
End Def.
End StdMap.

(** The newline of the messages. *)
Definition nl : String.string := String.String "010"%char String.EmptyString.

Module Container.
Section Def.
(** [CellVariable<T>], [FaceVariable<T>] and [SparseVariable<T>] are defined
    outside the sources at hand; of each only [label()] is used here.  So
    are [MapToCellVars<T>], [MapToFace<T>] and [MapToSparse<T>], taken to be
    the [std::map] from labels to variables that [container.hpp] includes
    [<map>] for. *)
Variables Cell Face Sparse : Type.
Variable cell_label : Cell -> String.string.
Variable face_label : Face -> String.string.
Variable sparse_label : Sparse -> String.string.

Record t : Type := Build {
  pmy_block : option nat;
  varVector_ : list Cell;
  faceVector_ : list Face;
  sparseVector_ : list Sparse;
  varMap_ : StdMap.t Cell;
  faceMap_ : StdMap.t Face;
  sparseMap_ : StdMap.t Sparse
}.

(** [Container<T>() = default] *)
Definition init : t := Build None [] [] [] [] [] [].

Definition setBlock (pmb : nat) (c : t) : t :=
  Build (Some pmb) (varVector_ c) (faceVector_ c) (sparseVector_ c)
        (varMap_ c) (faceMap_ c) (sparseMap_ c).

(** [Add(std::shared_ptr<CellVariable<T>> var)] *)
Definition Add (var : Cell) (c : t) : t :=
  Build (pmy_block c) (varVector_ c ++ [var]) (faceVector_ c) (sparseVector_ c)
        (StdMap.assign (cell_label var) var (varMap_ c))
        (faceMap_ c) (sparseMap_ c).

(** [Add(std::shared_ptr<FaceVariable<T>> var)] *)
Definition Add_face (var : Face) (c : t) : t :=
  Build (pmy_block c) (varVector_ c) (faceVector_ c ++ [var]) (sparseVector_ c)
        (varMap_ c)
        (StdMap.assign (face_label var) var (faceMap_ c)) (sparseMap_ c).

(** [Add(std::shared_ptr<SparseVariable<T>> var)] *)
Definition Add_sparse (var : Sparse) (c : t) : t :=
  Build (pmy_block c) (varVector_ c) (faceVector_ c) (sparseVector_ c ++ [var])
        (varMap_ c) (faceMap_ c)
        (StdMap.assign (sparse_label var) var (sparseMap_ c)).

(** [Get(std::string label)] *)
Definition Get (label : String.string) (c : t) : Throws Cell :=
  match StdMap.find label (varMap_ c) with
  | None =>
      invalid_argument
        (String.append nl
           (String.append label
              (String.append " array not found in Get()"%string nl)))
  | Some var => Returns var
  end.

(** [Get(const int index)]: [None] where [varVector_[index]] is out of
    range, which the source does not check. *)
Definition Get_index (index : Z) (c : t) : option Cell :=
  if (index <? 0)%Z then None else nth_error (varVector_ c) (Z.to_nat index).

(** The loop of [Index], from position [i] on. *)
Fixpoint Index_from (i : Z) (label : String.string) (vars : list Cell) : Z :=
  match vars with
  | [] => (-1)%Z
  | var :: vars' =>
      match String.compare (cell_label var) label with
      | Eq => i
      | _ => Index_from (i + 1)%Z label vars'
      end
  end.

Definition Index (label : String.string) (c : t) : Z :=
  Index_from 0%Z label (varVector_ c).

Definition GetSparseVariable (label : String.string) (c : t) : Throws Sparse :=
  match StdMap.find label (sparseMap_ c) with
  | None =>
      invalid_argument (String.append "sparseMap_ does not have "%string label)
  | Some var => Returns var
  end.

(** [GetFace(std::string label)] *)
Definition GetFace (label : String.string) (c : t) : Throws Face :=
  match StdMap.find label (faceMap_ c) with
  | None =>
      invalid_argument
        (String.append nl
           (String.append label
              (String.append " array not found in Get() Face"%string nl)))
  | Some var => Returns var
  end.

Definition Size (c : t) : Z := Z.of_nat (length (varVector_ c)).

(** The keys [operator==] collects from the three maps of a container. *)
Definition all_keys (c : t) : list String.string :=
  StdMap.keys (varMap_ c) ++ StdMap.keys (faceMap_ c)
    ++ StdMap.keys (sparseMap_ c).

(** [operator==]: [my_keys == cmp_keys] *)
Definition eqb (c cmp : t) : bool :=
  if list_eq_dec String.string_dec (all_keys c) (all_keys cmp)
  then true else false.

(** One [Add] call, of any of the three overloads. *)
Inductive Item : Type :=
| ACell (var : Cell)
| AFace (var : Face)
| ASparse (var : Sparse).

Definition Add_item (c : t) (x : Item) : t :=
  match x with
  | ACell var => Add var c
  | AFace var => Add_face var c
  | ASparse var => Add_sparse var c
  end.

(** The container after a sequence of [Add] calls. *)
Definition build (items : list Item) (c : t) : t :=
  fold_left Add_item items c.

(** The cell, face and sparse variables among the items, in order. *)
Definition cells (items : list Item) : list Cell :=
  flat_map (fun x => match x with ACell var => [var] | _ => [] end) items.

Definition faces (items : list Item) : list Face :=
  flat_map (fun x => match x with AFace var => [var] | _ => [] end) items.

Definition sparses (items : list Item) : list Sparse :=
  flat_map (fun x => match x with ASparse var => [var] | _ => [] end) items.

(** The first variable with the given label. *)
Definition first_labelled (label : String.string) (vars : list Cell)
  : option Cell :=
  List.find (fun var => String.eqb (cell_label var) label) vars.
End Def.
End Container.

(** [FieldPropertiesInterface]: the static [_label_to_id], passed
    explicitly. *)
Module FieldPropertiesInterface.

Definition registry : Type := StdMap.t Z.

(** [return _label_to_id[label];]: [operator[]] inserts a
    value-initialised entry when the label is not registered. *)
Definition GetIDFromLabel (label : String.string) (m : registry)
  : Z * registry :=
  match StdMap.find label m with
  | Some id => (id, m)
  | None => (0%Z, StdMap.assign label 0%Z m)
  end.

(** The loop of [GetLabelFromID]. *)
Fixpoint first_with_id (id : Z) (m : registry) : option String.string :=
  match m with
  | [] => None
  | (label, id') :: m' =>
      if (id' =? id)%Z then Some label else first_with_id id m'
  end.

Definition GetLabelFromID (id : Z) (m : registry) : String.string :=
  match first_with_id id m with
  | Some label => label
  | None => "UNKNOWN"%string
  end.

Definition InsertID (label : String.string) (id : Z) (m : registry) : registry :=
  StdMap.assign label id m.

End FieldPropertiesInterface.

(** ** Containers and registries to try the properties on *)

Module Fields.

(** A variable reduced to its label and a payload. *)
Record field : Set := Field { name : String.string; rank : nat }.

Definition item : Type := Container.Item field field field.
Definition box : Type := Container.t field field field.

Definition density : field := Field "density"%string 0.
Definition pressure : field := Field "pressure"%string 0.
Definition flux : field := Field "flux"%string 1.

(** Two cell variables and a face variable, with distinct labels. *)
Definition plain : list item :=
  [Container.ACell _ _ density; Container.AFace _ _ flux;
   Container.ACell _ _ pressure].

(** The same labels of each kind, added in another order and with other
    payloads. *)
Definition shuffled : list item :=
  [Container.ACell _ _ (Field "pressure"%string 7);
   Container.ACell _ _ (Field "density"%string 9);
   Container.AFace _ _ (Field "flux"%string 3)].

(** The label density added twice. *)
Definition twice : list item :=
  [Container.ACell _ _ density; Container.ACell _ _ pressure;
   Container.ACell _ _ (Field "density"%string 5)].

Definition built (items : list item) : box :=
  Container.build name name name items (Container.init field field field).

(** A registry in which two labels share the identifier 1. *)
Definition ids : FieldPropertiesInterface.registry :=
  FieldPropertiesInterface.InsertID "rho"%string 1%Z
    (FieldPropertiesInterface.InsertID "energy"%string 2%Z
       (FieldPropertiesInterface.InsertID "aux"%string 1%Z (StdMap.empty Z))).

(** A caller that adds a task, polls, and adds a task depending on the
    first. *)
Definition calls : list (TaskList.Call unit) :=
  Scenario.caller ++ [TaskList.CallAddTask Scenario.after_first].

End Fields.

(** * Properties of dependency identifiers *)

Module TaskIDFacts.
Import TaskID.

Lemma nth_nil_N (i : nat) : nth i (@nil N) 0%N = 0%N.
Proof. now destruct i. Qed.

Lemma all_zero_iff (bs : list N) :
  all_zero bs = true <-> forall i, nth i bs 0%N = 0%N.
Proof.
  unfold all_zero. induction bs as [|b bs IH]; cbn [forallb].
  - split; [intros _ i; apply nth_nil_N | reflexivity].
  - rewrite andb_true_iff, IH, N.eqb_eq. split.
    + intros [Hb Hbs] [|i]; [now symmetry | apply Hbs].
    + intros H. split; [symmetry; apply (H O) | intros i; apply (H (S i))].
Qed.

Lemma nth_or_blocks (a b : list N) (i : nat) :
  nth i (or_blocks a b) 0%N = N.lor (nth i a 0%N) (nth i b 0%N).
Proof.
  revert b i. induction a as [|x a IH]; intros [|y b] i; cbn [or_blocks].
  - now rewrite nth_nil_N.
  - now rewrite nth_nil_N.
  - rewrite nth_nil_N. now rewrite N.lor_0_r.
  - destruct i; cbn [nth]; [reflexivity | apply IH].
Qed.

Lemma subset_blocks_iff (mine rhs : list N) :
  subset_blocks mine rhs = true <->
  forall i, N.land (nth i mine 0%N) (nth i rhs 0%N) = nth i rhs 0%N.
Proof.
  revert mine. induction rhs as [|r rhs IH]; intros mine.
  - assert (E : subset_blocks mine [] = true) by now destruct mine.
    rewrite E. split; [intros _ i | reflexivity].
    rewrite nth_nil_N. apply N.land_0_r.
  - destruct mine as [|m mine].
    + change (subset_blocks [] (r :: rhs)) with (all_zero (r :: rhs)).
      rewrite all_zero_iff. split; intros H i.
      * rewrite H. apply N.land_0_r.
      * rewrite <- (H i). rewrite nth_nil_N. apply N.land_0_l.
    + cbn [subset_blocks]. rewrite andb_true_iff, IH, N.eqb_eq. split.
      * intros [H0 H] [|i]; [exact H0 | apply H].
      * intros H. split; [apply (H O) | intros i; apply (H (S i))].
Qed.

Lemma land_absorb_iff (m r : N) :
  N.land m r = r <->
  forall off, N.testbit r off = true -> N.testbit m off = true.
Proof.
  split.
  - intros H off Hr. rewrite <- H, N.land_spec in Hr.
    now apply andb_true_iff in Hr.
  - intros H. apply N.bits_inj. intros off. rewrite N.land_spec.
    specialize (H off). destruct (N.testbit r off).
    + now rewrite H.
    + apply andb_false_r.
Qed.

(** The satisfaction check is the subset test on bits. *)
Lemma CheckDependencies_iff (self rhs : t) :
  CheckDependencies self rhs = true <-> subset rhs self.
Proof.
  unfold CheckDependencies, subset, bit. rewrite subset_blocks_iff. split.
  - intros H blk. apply land_absorb_iff, H.
  - intros H i. apply land_absorb_iff, H.
Qed.

Lemma CheckDependencies_false_iff (self rhs : t) :
  CheckDependencies self rhs = false <-> ~ subset rhs self.
Proof.
  rewrite <- CheckDependencies_iff. now destruct (CheckDependencies self rhs).
Qed.

Lemma bit_union (a b : t) (blk : nat) (off : N) :
  bit (union a b) blk off = bit a blk off || bit b blk off.
Proof. unfold bit, union; simpl. now rewrite nth_or_blocks, N.lor_spec. Qed.

Lemma bit_SetFinished (self rhs : t) (blk : nat) (off : N) :
  bit (SetFinished self rhs) blk off = bit self blk off || bit rhs blk off.
Proof. apply bit_union. Qed.

Lemma nth_map_zero (bs : list N) (i : nat) :
  nth i (map (fun _ => 0%N) bs) 0%N = 0%N.
Proof.
  revert i. induction bs as [|b bs IH]; intros [|i]; cbn [map nth]; auto.
Qed.

Lemma bit_clear (x : t) (blk : nat) (off : N) : bit (clear x) blk off = false.
Proof. unfold bit, clear; cbn [bitblocks]. now rewrite nth_map_zero. Qed.

Lemma bit_empty (blk : nat) (off : N) : bit empty blk off = false.
Proof. unfold bit, empty; simpl. now destruct blk as [|[|blk]]. Qed.

Lemma eq_blocks_iff (a b : list N) :
  eq_blocks a b = true <-> forall i, nth i a 0%N = nth i b 0%N.
Proof.
  revert b. induction a as [|x a IH]; intros b.
  - cbn [eq_blocks]. rewrite all_zero_iff. split; intros H i.
    + now rewrite nth_nil_N, H.
    + now rewrite <- H, nth_nil_N.
  - destruct b as [|y b].
    + change (eq_blocks (x :: a) []) with (all_zero (x :: a)).
      rewrite all_zero_iff. split; intros H i.
      * now rewrite nth_nil_N, H.
      * now rewrite H, nth_nil_N.
    + cbn [eq_blocks]. rewrite andb_true_iff, IH, N.eqb_eq. split.
      * intros [H0 H] [|i]; [exact H0 | apply H].
      * intros H. split; [apply (H O) | intros i; apply (H (S i))].
Qed.

(** [operator==] holds exactly of identifiers with the same bits. *)
Lemma eqb_iff (a b : t) : eqb a b = true <-> equiv a b.
Proof.
  unfold eqb, equiv, bit. rewrite eq_blocks_iff. split.
  - intros H blk off. now rewrite H.
  - intros H i. apply N.bits_inj. intros off. apply H.
Qed.

Lemma equiv_refl (a : t) : equiv a a.
Proof. now intros blk off. Qed.

Lemma equiv_sym (a b : t) : equiv a b -> equiv b a.
Proof. intros H blk off. now rewrite H. Qed.

Lemma equiv_trans (a b c : t) : equiv a b -> equiv b c -> equiv a c.
Proof. intros H1 H2 blk off. now rewrite H1, H2. Qed.

Lemma subset_refl (a : t) : subset a a.
Proof. now intros blk off. Qed.

Lemma subset_trans (a b c : t) : subset a b -> subset b c -> subset a c.
Proof. intros H1 H2 blk off H. now apply H2, H1. Qed.

Lemma subset_SetFinished_l (c x : t) : subset c (SetFinished c x).
Proof. intros blk off H. rewrite bit_SetFinished, H. reflexivity. Qed.

Lemma subset_SetFinished_r (c x : t) : subset x (SetFinished c x).
Proof. intros blk off H. rewrite bit_SetFinished, H. apply orb_true_r. Qed.

(** The satisfaction check and [SetFinished] see bits only. *)
Lemma CheckDependencies_equiv (c c' d : t) :
  equiv c c' -> CheckDependencies c d = CheckDependencies c' d.
Proof.
  intros E.
  destruct (CheckDependencies c' d) eqn:H.
  - apply CheckDependencies_iff. apply CheckDependencies_iff in H.
    intros blk off Hd. rewrite E. now apply H.
  - apply CheckDependencies_false_iff. apply CheckDependencies_false_iff in H.
    intros S. apply H. intros blk off Hd. rewrite <- E. now apply S.
Qed.

Lemma SetFinished_equiv (c c' x : t) :
  equiv c c' -> equiv (SetFinished c x) (SetFinished c' x).
Proof. intros E blk off. now rewrite !bit_SetFinished, E. Qed.

(** Once satisfied, a dependency stays satisfied as the completed-set
    grows. *)
Lemma CheckDependencies_mono (c c' d : t) :
  subset c c' -> CheckDependencies c d = true -> CheckDependencies c' d = true.
Proof.
  rewrite !CheckDependencies_iff. intros S H. eapply subset_trans; eassumption.
Qed.

(** A union is satisfied exactly when both operands are. *)
Lemma CheckDependencies_both (a b c : t) :
  CheckDependencies c (union a b) = true <->
  CheckDependencies c a = true /\ CheckDependencies c b = true.
Proof.
  rewrite !CheckDependencies_iff. unfold subset. split.
  - intros H. split; intros blk off Hx; apply H;
      rewrite bit_union, Hx; auto using orb_true_r.
  - intros [Ha Hb] blk off Hx. rewrite bit_union in Hx.
    apply orb_true_iff in Hx. destruct Hx; auto.
Qed.

(** The identifier of index 0 is satisfied by every completed-set. *)
Lemma CheckDependencies_empty (c : t) : CheckDependencies c empty = true.
Proof.
  apply CheckDependencies_iff. intros blk off H. now rewrite bit_empty in H.
Qed.

End TaskIDFacts.

Module TaskIDBits.
Import TaskID TaskIDFacts.

Lemma nth_repeat_snoc (n i : nat) (v : N) :
  nth i (repeat 0%N n ++ [v]) 0%N = if Nat.eqb i n then v else 0%N.
Proof.
  revert i. induction n as [|n IH]; intros [|i]; cbn [repeat app nth Nat.eqb].
  - reflexivity.
  - apply nth_nil_N.
  - reflexivity.
  - apply IH.
Qed.

Lemma testbit_one_shiftl (m off : N) :
  N.testbit (N.shiftl 1 m) off = N.eqb m off.
Proof. rewrite N.shiftl_1_l. apply N.pow2_bits_eqb. Qed.

(** [Set_ k] has exactly one bit, that of index [k], when [k >= 1], and
    none when [k = 0]. *)
Lemma bit_Set (k : N) (blk : nat) (off : N) :
  bit (Set_ k) blk off = true <->
  (1 <= k)%N /\ blk = N.to_nat ((k - 1) / BITBLOCK) /\
  off = ((k - 1) mod BITBLOCK)%N.
Proof.
  destruct k as [|p].
  - change (Set_ 0) with empty. rewrite bit_empty. split; [discriminate | lia].
  - unfold bit, Set_. cbn [bitblocks]. rewrite nth_repeat_snoc.
    destruct (Nat.eqb_spec blk (N.to_nat ((N.pos p - 1) / BITBLOCK))) as [E|E].
    + rewrite testbit_one_shiftl, N.eqb_eq. split.
      * intros H. repeat split; [lia | exact E | now symmetry].
      * intros (_ & _ & H). now symmetry.
    + rewrite N.bits_0. split; [discriminate | intros (_ & H & _); contradiction].
Qed.

Lemma has_Set (k j : N) :
  (1 <= j)%N -> has (Set_ k) j = true <-> k = j.
Proof.
  intros Hj. unfold has. rewrite bit_Set. unfold BITBLOCK. split.
  - intros (Hk & Hblk & Hoff).
    apply N2Nat.inj in Hblk.
    pose proof (N.div_mod (k - 1) 16 ltac:(lia)) as Ek.
    pose proof (N.div_mod (j - 1) 16 ltac:(lia)) as Ej.
    rewrite Hblk, Hoff in Ej. lia.
  - intros ->. repeat split. exact Hj.
Qed.

(** Identifiers built from different indices differ. *)
Lemma eqb_Set (j k : N) :
  (1 <= j)%N -> (1 <= k)%N -> eqb (Set_ j) (Set_ k) = true <-> j = k.
Proof.
  intros Hj Hk. rewrite eqb_iff. split.
  - intros E.
    assert (H : has (Set_ j) k = true).
    { unfold has. rewrite E. apply bit_Set. repeat split. exact Hk. }
    now apply has_Set in H.
  - intros ->. apply equiv_refl.
Qed.

Lemma log2_lt_of_lt_pow2 (x n : N) :
  (0 < n)%N -> (x < 2 ^ n)%N -> (N.log2 x < n)%N.
Proof.
  intros Hn Hx. destruct (N.eq_dec x 0) as [->|Nx].
  - exact Hn.
  - apply N.log2_lt_pow2; [lia | exact Hx].
Qed.

Lemma lor_lt_pow2 (x y n : N) :
  (0 < n)%N -> (x < 2 ^ n)%N -> (y < 2 ^ n)%N -> (N.lor x y < 2 ^ n)%N.
Proof.
  intros Hn Hx Hy. destruct (N.eq_dec (N.lor x y) 0) as [E|E].
  - rewrite E. apply N.neq_0_lt_0, N.pow_nonzero. discriminate.
  - apply N.log2_lt_pow2; [lia|]. rewrite N.log2_lor.
    apply N.max_lub_lt; now apply log2_lt_of_lt_pow2.
Qed.

Lemma wf_or_blocks (a b : list N) :
  Forall (fun x => (x < 2 ^ BITBLOCK)%N) a ->
  Forall (fun x => (x < 2 ^ BITBLOCK)%N) b ->
  Forall (fun x => (x < 2 ^ BITBLOCK)%N) (or_blocks a b).
Proof.
  intros Ha. revert b. induction Ha as [|x a Hx Ha IH]; intros b Hb.
  - exact Hb.
  - destruct Hb as [|y b Hy Hb]; cbn [or_blocks].
    + now constructor.
    + constructor; [|now apply IH]. now apply lor_lt_pow2.
Qed.

(** The operations keep every block within its sixteen bits. *)
Lemma wf_Set (k : N) : wf (Set_ k).
Proof.
  destruct k as [|p]; unfold wf, Set_; cbn [bitblocks].
  - constructor; [reflexivity | constructor].
  - apply Forall_app. split.
    + apply Forall_forall. intros x Hx. apply repeat_spec in Hx. now subst.
    + constructor; [|constructor]. rewrite N.shiftl_1_l.
      apply N.pow_lt_mono_r; [lia|]. apply N.mod_lt. discriminate.
Qed.

Lemma wf_union (a b : t) : wf a -> wf b -> wf (union a b).
Proof. apply wf_or_blocks. Qed.

Lemma wf_SetFinished (a b : t) : wf a -> wf b -> wf (SetFinished a b).
Proof. apply wf_or_blocks. Qed.

Lemma wf_clear (a : t) : wf (clear a).
Proof.
  unfold wf, clear; cbn [bitblocks]. apply Forall_forall. intros x Hx.
  apply in_map_iff in Hx. destruct Hx as (_ & <- & _). reflexivity.
Qed.

End TaskIDBits.

(** C1, as amended: for all dependency identifiers [a], [b] and every
    completed-set [c], the union [a | b] is satisfied by [c]
    ([c.CheckDependencies(a | b)] returns true) if and only if [a] is
    satisfied by [c] and [b] is satisfied by [c]. *)
Theorem CheckDependencies_union (a b c : TaskID.t) :
  TaskID.CheckDependencies c (a |' b) = true <->
  TaskID.CheckDependencies c a = true /\ TaskID.CheckDependencies c b = true.
Proof. apply TaskIDFacts.CheckDependencies_both. Qed.

(** C1 as stated fails: with [a] the identity of index 1, [b] that of
    index 2 and the completed-set holding index 1 only, [a] is satisfied
    and [a | b] is not. *)
Lemma CheckDependencies_union_not_or :
  TaskID.CheckDependencies (TaskID.Set_ 1) (TaskID.Set_ 1) = true /\
  TaskID.CheckDependencies (TaskID.Set_ 1) (TaskID.Set_ 1 |' TaskID.Set_ 2) = false.
Proof. split; reflexivity. Qed.

(** * Properties of one scan *)

Section ScanFacts.
Variable W : Type.
Import TaskList Sched.
Local Abbreviation Task := (BaseTask.t W).
Local Abbreviation Event := (TaskList.Event W).

Local Abbreviation dep := (@BaseTask.GetDependency W).
Local Abbreviation id := (@BaseTask.GetID W).
Local Abbreviation unflagged :=
  (fun task : Task => negb (BaseTask.IsComplete task)).

(** The three ways through the loop body. *)
Lemma visit_cases (task : Task) (c : TaskID.t) (w : W) :
  (TaskID.CheckDependencies c (dep task) = false /\
   visit task c w = MkLoop task c w [])
  \/ (TaskID.CheckDependencies c (dep task) = true /\
      fst (BaseTask.call task w) = incomplete /\
      visit task c w =
        MkLoop task c (snd (BaseTask.call task w)) [Ev task c incomplete])
  \/ (TaskID.CheckDependencies c (dep task) = true /\
      fst (BaseTask.call task w) = complete /\
      visit task c w =
        MkLoop (BaseTask.SetComplete task) (TaskID.SetFinished c (id task))
               (snd (BaseTask.call task w)) [Ev task c complete]).
Proof.
  unfold visit. destruct (TaskID.CheckDependencies c (dep task)).
  - right. destruct (BaseTask.call task w) as [[|] w']; cbn [fst snd]; auto.
  - left. auto.
Qed.

Lemma scan_cons (task : Task) (rest : list Task) (c : TaskID.t) (w : W) :
  scan (task :: rest) c w =
    let v := visit task c w in
    let r := scan rest (l_completed v) (l_world v) in
    MkLoop (l_tasks v :: l_tasks r) (l_completed r) (l_world r)
           (l_trace v ++ l_trace r).
Proof. reflexivity. Qed.

Lemma scan_app (a b : list Task) (c : TaskID.t) (w : W) :
  scan (a ++ b) c w =
    let ra := scan a c w in
    let rb := scan b (l_completed ra) (l_world ra) in
    MkLoop (l_tasks ra ++ l_tasks rb) (l_completed rb) (l_world rb)
           (l_trace ra ++ l_trace rb).
Proof.
  revert c w. induction a as [|task a IH]; intros c w.
  - cbn [app scan l_tasks l_completed l_world l_trace].
    now destruct (scan b c w).
  - rewrite <- app_comm_cons, !scan_cons. cbv zeta. rewrite IH. cbv zeta.
    cbn [l_tasks l_completed l_world l_trace].
    now rewrite app_assoc, app_comm_cons.
Qed.

Lemma completed_after_app (tr1 tr2 : list Event) (c : TaskID.t) :
  completed_after (tr1 ++ tr2) c = completed_after tr2 (completed_after tr1 c).
Proof. apply fold_left_app. Qed.

(** The completed-set a scan leaves is the one it started from with the
    identities of the tasks that returned [complete] marked, in order. *)
Lemma scan_completed (tasks : list Task) (c : TaskID.t) (w : W) :
  l_completed (scan tasks c w) = completed_after (l_trace (scan tasks c w)) c.
Proof.
  revert c w. induction tasks as [|task rest IH]; intros c w; [reflexivity|].
  rewrite scan_cons. cbv zeta. cbn [l_completed l_trace].
  rewrite completed_after_app, IH. f_equal.
  destruct (visit_cases task c w) as [[_ E]|[(_ & _ & E)|(_ & _ & E)]];
    rewrite E; reflexivity.
Qed.

Lemma subset_mark (c : TaskID.t) (e : Event) : TaskID.subset c (mark c e).
Proof.
  unfold mark. destruct (ev_status e).
  - apply TaskIDFacts.subset_SetFinished_l.
  - apply TaskIDFacts.subset_refl.
Qed.

(** The completed-set only grows. *)
Lemma subset_completed_after (tr : list Event) (c : TaskID.t) :
  TaskID.subset c (completed_after tr c).
Proof.
  revert c. induction tr as [|e tr IH]; intros c.
  - apply TaskIDFacts.subset_refl.
  - eapply TaskIDFacts.subset_trans; [apply subset_mark | apply IH].
Qed.

Lemma scan_subset (tasks : list Task) (c : TaskID.t) (w : W) :
  TaskID.subset c (l_completed (scan tasks c w)).
Proof. rewrite scan_completed. apply subset_completed_after. Qed.

Lemma visit_subset (task : Task) (c : TaskID.t) (w : W) :
  TaskID.subset c (l_completed (visit task c w)).
Proof.
  destruct (visit_cases task c w) as [[_ E]|[(_ & _ & E)|(_ & _ & E)]];
    rewrite E; cbn [l_completed];
    auto using TaskIDFacts.subset_refl, TaskIDFacts.subset_SetFinished_l.
Qed.

(** Every entry of the log is a task of the list, invoked when the
    completed-set of that moment satisfied its dependency. *)
Lemma scan_log (tasks : list Task) (c : TaskID.t) (w : W)
      (pre post : list Event) (e : Event) :
  l_trace (scan tasks c w) = pre ++ e :: post ->
  ev_seen e = completed_after pre c /\
  TaskID.CheckDependencies (ev_seen e) (dep (ev_task e)) = true /\
  In (ev_task e) tasks.
Proof.
  revert c w pre. induction tasks as [|task rest IH]; intros c w pre.
  - cbn [scan l_trace]. intros H. now destruct pre.
  - rewrite scan_cons. cbv zeta. cbn [l_trace].
    destruct (visit_cases task c w) as [[_ E]|[(D & _ & E)|(D & _ & E)]];
      rewrite E; cbn [l_trace l_completed l_world app]; intros H.
    + destruct (IH _ _ _ H) as (H1 & H2 & H3). auto using in_cons.
    + destruct pre as [|e0 pre]; cbn [app] in H; injection H as <- H.
      * cbn [ev_seen ev_task]. auto using in_eq.
      * destruct (IH _ _ _ H) as (H1 & H2 & H3). auto using in_cons.
    + destruct pre as [|e0 pre]; cbn [app] in H; injection H as <- H.
      * cbn [ev_seen ev_task]. auto using in_eq.
      * destruct (IH _ _ _ H) as (H1 & H2 & H3). auto using in_cons.
Qed.

Lemma replays_app (log1 log2 : list Event) (w w1 w2 : W) :
  replays log1 w w1 -> replays log2 w1 w2 -> replays (log1 ++ log2) w w2.
Proof.
  revert w. induction log1 as [|e log1 IH]; intros w; cbn [replays app].
  - now intros ->.
  - intros [Hs H1] H2. split; [exact Hs | now apply IH].
Qed.

(** The bodies a scan runs are those of its log, in order. *)
Lemma scan_replays (tasks : list Task) (c : TaskID.t) (w : W) :
  replays (l_trace (scan tasks c w)) w (l_world (scan tasks c w)).
Proof.
  revert c w. induction tasks as [|task rest IH]; intros c w; [reflexivity|].
  rewrite scan_cons. cbv zeta. cbn [l_trace l_world].
  eapply replays_app; [|apply IH].
  destruct (visit_cases task c w) as [[_ E]|[(_ & S & E)|(_ & S & E)]];
    rewrite E; cbn [l_trace l_world replays ev_task ev_status]; auto.
Qed.

(** A task whose dependency is satisfied when the scan starts is invoked
    in that scan. *)
Lemma scan_invokes (tasks : list Task) (c : TaskID.t) (w : W) (task : Task) :
  In task tasks ->
  TaskID.CheckDependencies c (dep task) = true ->
  exists e, In e (l_trace (scan tasks c w)) /\ ev_task e = task.
Proof.
  revert c w. induction tasks as [|t0 rest IH]; intros c w Hin D;
    [contradiction | destruct Hin as [->|Hin]].
  - rewrite scan_cons. cbv zeta. cbn [l_trace].
    destruct (visit_cases task c w) as [[D' _]|[(_ & _ & E)|(_ & _ & E)]];
      [congruence | |]; rewrite E; cbn [l_trace app];
      eexists; (split; [apply in_eq | reflexivity]).
  - rewrite scan_cons. cbv zeta. cbn [l_trace].
    destruct (IH (l_completed (visit t0 c w)) (l_world (visit t0 c w)) Hin)
      as (e & He & Et).
    + eapply TaskIDFacts.CheckDependencies_mono; [apply visit_subset | exact D].
    + exists e. split; [apply in_or_app; now right | exact Et].
Qed.

(** What the scan and [ClearComplete] do to a list without flagged tasks. *)
Lemma scan_Retire (tasks : list Task) (c : TaskID.t) (w : W) :
  Forall (fun task => BaseTask.IsComplete task = false) tasks ->
  Retire tasks (l_trace (scan tasks c w))
         (filter unflagged (l_tasks (scan tasks c w))).
Proof.
  intros F. revert c w. induction F as [|task rest Ht F IH]; intros c w.
  - constructor.
  - rewrite scan_cons. cbv zeta. cbn [l_trace l_tasks].
    destruct (visit_cases task c w) as [[_ E]|[(_ & _ & E)|(_ & _ & E)]];
      rewrite E; cbn [l_trace l_tasks l_completed l_world app filter].
    + rewrite Ht. cbn [negb]. apply Retire_skip, IH.
    + rewrite Ht. cbn [negb]. apply Retire_retry, IH.
    + cbn [BaseTask.SetComplete BaseTask.IsComplete BaseTask._complete negb].
      apply Retire_done, IH.
Qed.

Lemma Retire_incl (before after : list Task) (log : list Event) :
  Retire before log after -> incl after before.
Proof.
  induction 1; auto using incl_nil_l, incl_cons, in_eq, incl_tl.
Qed.

Lemma Retire_length (before after : list Task) (log : list Event) :
  Retire before log after -> length after <= length before.
Proof. induction 1; cbn [length]; lia. Qed.

End ScanFacts.

(** * Properties of [DoAvailable] *)

Section DoAvailableFacts.
Variable W : Type.
Import TaskList Sched.
Local Abbreviation Task := (BaseTask.t W).
Local Abbreviation Event := (TaskList.Event W).
Local Abbreviation dep := (@BaseTask.GetDependency W).
Local Abbreviation id := (@BaseTask.GetID W).

Lemma DoAvailable_trace (self : t W) (w : W) :
  r_trace (DoAvailable self w) =
  l_trace (scan (_task_list self) (_tasks_completed self) w).
Proof. reflexivity. Qed.

Lemma DoAvailable_world (self : t W) (w : W) :
  r_world (DoAvailable self w) =
  l_world (scan (_task_list self) (_tasks_completed self) w).
Proof. reflexivity. Qed.

Lemma DoAvailable_pending (self : t W) (w : W) :
  _task_list (r_list (DoAvailable self w)) =
  filter (fun task : Task => negb (BaseTask.IsComplete task))
         (l_tasks (scan (_task_list self) (_tasks_completed self) w)).
Proof. reflexivity. Qed.

Lemma DoAvailable_completed (self : t W) (w : W) :
  _tasks_completed (r_list (DoAvailable self w)) =
  completed_after (r_trace (DoAvailable self w)) (_tasks_completed self).
Proof. rewrite DoAvailable_trace, <- scan_completed. reflexivity. Qed.

Lemma DoAvailable_tasks_added (self : t W) (w : W) :
  _tasks_added (r_list (DoAvailable self w)) = _tasks_added self.
Proof. reflexivity. Qed.

Lemma DoAvailable_dependencies (self : t W) (w : W) :
  _dependencies (r_list (DoAvailable self w)) = _dependencies self.
Proof. reflexivity. Qed.

(** [DoAvailable] returns [complete] or [running], by whether a task is
    left. *)
Lemma DoAvailable_status (self : t W) (w : W) :
  (_task_list (r_list (DoAvailable self w)) = [] /\
   r_status (DoAvailable self w) = TaskListStatus.complete)
  \/ (_task_list (r_list (DoAvailable self w)) <> [] /\
      r_status (DoAvailable self w) = TaskListStatus.running).
Proof.
  unfold DoAvailable. cbn [r_status r_list]. unfold IsComplete.
  destruct (_task_list (ClearComplete _)); [left | right]; split;
    (reflexivity || discriminate).
Qed.

(** Every call leaves a list without flagged tasks. *)
Lemma clean_DoAvailable (self : t W) (w : W) :
  clean (r_list (DoAvailable self w)).
Proof.
  unfold clean. rewrite DoAvailable_pending. apply Forall_forall.
  intros task H. apply filter_In in H. destruct H as [_ H].
  now apply negb_true_iff in H.
Qed.

Lemma clean_init : clean (init W).
Proof. constructor. Qed.

Lemma clean_Reset (self : t W) : clean (Reset self).
Proof. constructor. Qed.

Lemma clean_AddTask (self : t W) (func : BaseTask.TaskFunc W) (d : TaskID.t) :
  clean self -> clean (snd (AddTask self func d)).
Proof.
  intros C. unfold clean, AddTask. cbn [snd _task_list].
  apply Forall_app. split; [exact C | now repeat constructor].
Qed.

Lemma DoAvailable_Retire (self : t W) (w : W) :
  clean self ->
  Retire (_task_list self) (r_trace (DoAvailable self w))
         (_task_list (r_list (DoAvailable self w))).
Proof.
  intros C. rewrite DoAvailable_trace, DoAvailable_pending.
  now apply scan_Retire.
Qed.

Lemma DoAvailable_incl (self : t W) (w : W) :
  clean self ->
  incl (_task_list (r_list (DoAvailable self w))) (_task_list self).
Proof. intros C. eapply Retire_incl, DoAvailable_Retire, C. Qed.

(** On a list with nothing pending a call changes nothing. *)
Lemma DoAvailable_drained (self : t W) (w : W) :
  _task_list self = [] ->
  DoAvailable self w = MkResult self w TaskListStatus.complete [].
Proof.
  destruct self as [tasks added deps completed]. cbn [_task_list].
  intros ->. reflexivity.
Qed.

Lemma poll_drained (n : nat) (self : t W) (w : W) :
  _task_list self = [] -> poll n self w = (self, w).
Proof.
  intros E. induction n as [|n IH]; [reflexivity|].
  cbn [poll]. rewrite (DoAvailable_drained _ w E). exact IH.
Qed.

Lemma poll_S (n : nat) (self : t W) (w : W) :
  poll (S n) self w =
  poll n (r_list (DoAvailable self w)) (r_world (DoAvailable self w)).
Proof. reflexivity. Qed.

Lemma nth_call_S (n : nat) (self : t W) (w : W) :
  nth_call (S n) self w =
  nth_call n (r_list (DoAvailable self w)) (r_world (DoAvailable self w)).
Proof. reflexivity. Qed.

Lemma poll_succ_r (n : nat) (self : t W) (w : W) :
  poll (S n) self w =
  (r_list (nth_call n self w), r_world (nth_call n self w)).
Proof.
  revert self w. induction n as [|n IH]; intros self w; [reflexivity|].
  rewrite poll_S, IH. reflexivity.
Qed.

(** *** What [Retire] says of a single task *)

Lemma Retire_In (before after : list Task) (log : list Event) (task : Task) :
  Retire before log after ->
  In task before ->
  In task after \/ exists seen, In (Ev task seen complete) log.
Proof.
  induction 1 as [|t0 b l a R IH|t0 s b l a R IH|t0 s b l a R IH]; intros Hin.
  - contradiction.
  - destruct Hin as [->|Hin]; [left; apply in_eq|].
    destruct (IH Hin) as [H|[seen H]]; [left; now apply in_cons | right; eauto].
  - destruct Hin as [->|Hin]; [left; apply in_eq|].
    destruct (IH Hin) as [H|[seen H]];
      [left; now apply in_cons | right; exists seen; now apply in_cons].
  - destruct Hin as [->|Hin]; [right; exists s; apply in_eq|].
    destruct (IH Hin) as [H|[seen H]];
      [left; exact H | right; exists seen; now apply in_cons].
Qed.

Lemma Retire_retried (before after : list Task) (log : list Event) (e : Event) :
  Retire before log after ->
  In e log -> ev_status e = incomplete -> In (ev_task e) after.
Proof.
  induction 1 as [|t0 b l a R IH|t0 s b l a R IH|t0 s b l a R IH];
    intros Hin Hs.
  - contradiction.
  - apply in_cons. now apply IH.
  - destruct Hin as [<-|Hin]; [apply in_eq | apply in_cons; now apply IH].
  - destruct Hin as [<-|Hin]; [discriminate Hs | now apply IH].
Qed.

Lemma Retire_log_In (before after : list Task) (log : list Event) (e : Event) :
  Retire before log after -> In e log -> In (ev_task e) before.
Proof.
  induction 1 as [|t0 b l a R IH|t0 s b l a R IH|t0 s b l a R IH]; intros Hin.
  - contradiction.
  - apply in_cons. now apply IH.
  - destruct Hin as [<-|Hin]; [apply in_eq | apply in_cons; now apply IH].
  - destruct Hin as [<-|Hin]; [apply in_eq | apply in_cons; now apply IH].
Qed.

(** *** Bits of the completed-set *)

Lemma bit_mark (c : TaskID.t) (e : Event) (blk : nat) (off : N) :
  TaskID.bit (id (ev_task e)) blk off = false ->
  TaskID.bit (mark c e) blk off = TaskID.bit c blk off.
Proof.
  intros H. unfold mark. destruct (ev_status e); [|reflexivity].
  rewrite TaskIDFacts.bit_SetFinished, H. apply orb_false_r.
Qed.

Lemma bit_completed_after (tr : list Event) (c : TaskID.t) (blk : nat) (off : N) :
  (forall e, In e tr -> ev_status e = complete ->
             TaskID.bit (id (ev_task e)) blk off = false) ->
  TaskID.bit (completed_after tr c) blk off = TaskID.bit c blk off.
Proof.
  revert c. induction tr as [|e tr IH]; intros c H; [reflexivity|].
  cbn [completed_after fold_left]. fold (completed_after tr (mark c e)).
  rewrite IH by (intros e' He'; apply H; now apply in_cons).
  unfold mark. destruct (ev_status e) eqn:Es; [|reflexivity].
  rewrite TaskIDFacts.bit_SetFinished, (H e (in_eq _ _) Es). apply orb_false_r.
Qed.

End DoAvailableFacts.

(** * The scheduler *)

Section Scheduler.
Variable W : Type.
Import TaskList Sched.
Local Abbreviation Task := (BaseTask.t W).
Local Abbreviation Event := (TaskList.Event W).
Local Abbreviation dep := (@BaseTask.GetDependency W).
Local Abbreviation id := (@BaseTask.GetID W).

Lemma orphaned_not_invoked (task : Task) (blk : nat) (off : N) (self : t W)
      (w : W) (e : Event) :
  TaskID.bit (dep task) blk off = true ->
  orphaned task blk off self ->
  In e (r_trace (DoAvailable self w)) ->
  TaskID.bit (dep (ev_task e)) blk off = false.
Proof.
  intros Hd (C & Hin & Hc & Hids) He.
  apply in_split in He. destruct He as (pre & post & E).
  pose proof E as E'. rewrite DoAvailable_trace in E'.
  apply scan_log in E'. destruct E' as (Hseen & Hchk & _).
  apply TaskIDFacts.CheckDependencies_iff in Hchk.
  destruct (TaskID.bit (dep (ev_task e)) blk off) eqn:B; [|reflexivity].
  apply Hchk in B. rewrite Hseen, bit_completed_after in B; [congruence|].
  intros e' He' _. apply Hids.
  eapply Retire_log_In; [apply (DoAvailable_Retire w C)|].
  rewrite E. apply in_or_app. now left.
Qed.

Lemma orphaned_DoAvailable (task : Task) (blk : nat) (off : N) (self : t W)
      (w : W) :
  TaskID.bit (dep task) blk off = true ->
  orphaned task blk off self ->
  orphaned task blk off (r_list (DoAvailable self w)).
Proof.
  intros Hd O. pose proof O as (C & Hin & Hc & Hids).
  pose proof (DoAvailable_Retire w C) as R.
  repeat split.
  - apply clean_DoAvailable.
  - destruct (Retire_In task R Hin) as [H|[seen H]]; [exact H|].
    pose proof (@orphaned_not_invoked task blk off self w _ Hd O H) as B.
    cbn [ev_task] in B. congruence.
  - rewrite DoAvailable_completed, bit_completed_after; [exact Hc|].
    intros e He _. apply Hids. eapply Retire_log_In; eassumption.
  - intros t0 H0. apply Hids. eapply Retire_incl; eassumption.
Qed.

Lemma orphaned_poll (task : Task) (blk : nat) (off : N) (n : nat) :
  TaskID.bit (dep task) blk off = true ->
  forall (self : t W) (w : W),
  orphaned task blk off self ->
  orphaned task blk off (fst (poll n self w)).
Proof.
  intros Hd. induction n as [|n IH]; intros self w O; [exact O|].
  rewrite poll_S. apply IH. now apply orphaned_DoAvailable.
Qed.

(** C2, as amended: when a scan of [DoAvailable] ends with tasks still
    pending, [DoAvailable] returns [TaskListStatus::running], also when no
    task transitioned to complete.  In particular, when a pending task's
    dependency names an identity that is not completed and that no pending
    task carries (it was never added to the list), every call of
    [DoAvailable] returns [running], never invokes a task depending on that
    identity, and leaves the orphan pending. *)
Theorem DoAvailable_running_not_stuck (self : t W) (w : W) :
  (_task_list (r_list (DoAvailable self w)) <> [] ->
   r_status (DoAvailable self w) = TaskListStatus.running) /\
  r_status (DoAvailable self w) <> TaskListStatus.stuck /\
  (forall (task : Task) (blk : nat) (off : N),
      clean self ->
      In task (_task_list self) ->
      TaskID.bit (dep task) blk off = true ->
      TaskID.bit (_tasks_completed self) blk off = false ->
      (forall t0, In t0 (_task_list self) ->
                  TaskID.bit (id t0) blk off = false) ->
      forall n,
        r_status (nth_call n self w) = TaskListStatus.running /\
        In task (_task_list (r_list (nth_call n self w))) /\
        (forall e, In e (r_trace (nth_call n self w)) ->
                   TaskID.bit (dep (ev_task e)) blk off = false)).
Proof.
  split; [|split].
  - intros H. destruct (DoAvailable_status self w) as [[E _]|[_ E]];
      [contradiction | exact E].
  - destruct (DoAvailable_status self w) as [[_ E]|[_ E]]; rewrite E;
      discriminate.
  - intros task blk off C Hin Hd Hc Hids n.
    assert (O : orphaned task blk off (fst (poll n self w))).
    { apply orphaned_poll; [exact Hd|]. repeat split; assumption. }
    unfold nth_call.
    set (l := fst (poll n self w)) in *. set (w' := snd (poll n self w)).
    pose proof (@orphaned_DoAvailable task blk off l w' Hd O)
      as (_ & Hin' & _ & _).
    repeat split.
    + destruct (DoAvailable_status l w') as [[E _]|[_ E]]; [|exact E].
      rewrite E in Hin'. contradiction.
    + exact Hin'.
    + intros e He. eapply orphaned_not_invoked; eassumption.
Qed.

(** C3: the bodies a scan of [DoAvailable] runs are those of its log, in
    order; every entry of the log is a pending task whose dependency [d] is
    a subset of the completed-set of that moment,
    which is the completed-set at the start of the scan with the identities
    of the tasks that completed earlier in the scan marked; and a task whose
    dependency is satisfied once the tasks before it in the list have been
    visited is invoked in that same scan, satisfied at the start or not. *)
Theorem DoAvailable_respects_dependencies (self : t W) (w : W) :
  replays (r_trace (DoAvailable self w)) w (r_world (DoAvailable self w)) /\
  (forall (pre post : list Event) (e : Event),
      r_trace (DoAvailable self w) = pre ++ e :: post ->
      ev_seen e = completed_after pre (_tasks_completed self) /\
      TaskID.subset (dep (ev_task e)) (ev_seen e) /\
      In (ev_task e) (_task_list self)) /\
  (forall (earlier later : list Task) (task : Task),
      _task_list self = earlier ++ task :: later ->
      TaskID.subset (dep task)
        (l_completed (scan earlier (_tasks_completed self) w)) ->
      exists e, In e (r_trace (DoAvailable self w)) /\ ev_task e = task).
Proof.
  split; [apply scan_replays | split].
  - intros pre post e E. rewrite DoAvailable_trace in E.
    apply scan_log in E. destruct E as (H1 & H2 & H3).
    apply TaskIDFacts.CheckDependencies_iff in H2. auto.
  - intros earlier later task E S.
    rewrite DoAvailable_trace, E, scan_app. cbv zeta. cbn [l_trace].
    destruct (@scan_invokes W (task :: later)
                (l_completed (scan earlier (_tasks_completed self) w))
                (l_world (scan earlier (_tasks_completed self) w)) task)
      as (e & He & Et).
    + apply in_eq.
    + now apply TaskIDFacts.CheckDependencies_iff.
    + exists e. split; [apply in_or_app; now right | exact Et].
Qed.

(** C6: in a call of [DoAvailable] on a list without flagged tasks, going
    through the pending tasks in order, a task is gone afterwards only if it
    was invoked and returned [complete], and then it is gone; a task that was
    invoked and returned [incomplete] and a task that was not invoked stay,
    and the one that returned [incomplete] is invoked again by the next
    call. *)
Theorem DoAvailable_retires_completed_only (self : t W) (w : W) :
  clean self ->
  Retire (_task_list self) (r_trace (DoAvailable self w))
         (_task_list (r_list (DoAvailable self w))) /\
  (forall task, In task (_task_list self) ->
     In task (_task_list (r_list (DoAvailable self w))) \/
     exists seen, In (Ev task seen complete) (r_trace (DoAvailable self w))) /\
  (forall task, In task (_task_list self) ->
     (forall e, In e (r_trace (DoAvailable self w)) -> ev_task e <> task) ->
     In task (_task_list (r_list (DoAvailable self w)))) /\
  (forall e, In e (r_trace (DoAvailable self w)) ->
     ev_status e = incomplete ->
     In (ev_task e) (_task_list (r_list (DoAvailable self w))) /\
     forall w', exists e',
       In e' (r_trace (DoAvailable (r_list (DoAvailable self w)) w')) /\
       ev_task e' = ev_task e) /\
  clean (r_list (DoAvailable self w)).
Proof.
  intros C. pose proof (DoAvailable_Retire w C) as R.
  split; [exact R|]. split; [|split; [|split]].
  - intros task Hin. exact (Retire_In task R Hin).
  - intros task Hin Hno.
    destruct (Retire_In task R Hin) as [H|[seen H]]; [exact H|].
    exfalso. exact (Hno _ H eq_refl).
  - intros e He Hs. pose proof (Retire_retried e R He Hs) as Hin.
    split; [exact Hin|]. intros w'.
    rewrite (DoAvailable_trace (r_list (DoAvailable self w))).
    apply scan_invokes; [exact Hin|].
    apply in_split in He. destruct He as (pre & post & E).
    pose proof E as E'. rewrite DoAvailable_trace in E'.
    apply scan_log in E'. destruct E' as (Hseen & Hchk & _).
    eapply TaskIDFacts.CheckDependencies_mono; [|exact Hchk].
    rewrite DoAvailable_completed, E, completed_after_app, <- Hseen.
    apply subset_completed_after.
  - apply clean_DoAvailable.
Qed.

(** C7: once [DoAvailable] has returned [complete], every later call
    invokes no task, leaves the list (its completed-set included) and the
    state the tasks act on unchanged, and returns [complete] again. *)
Theorem DoAvailable_idempotent_once_complete (self : t W) (w : W) :
  r_status (DoAvailable self w) = TaskListStatus.complete ->
  forall n,
    nth_call n (r_list (DoAvailable self w)) (r_world (DoAvailable self w)) =
      MkResult (r_list (DoAvailable self w)) (r_world (DoAvailable self w))
               TaskListStatus.complete [] /\
    poll n (r_list (DoAvailable self w)) (r_world (DoAvailable self w)) =
      (r_list (DoAvailable self w), r_world (DoAvailable self w)).
Proof.
  intros Hs n.
  assert (E : _task_list (r_list (DoAvailable self w)) = []).
  { destruct (DoAvailable_status self w) as [[E _]|[_ E]]; [exact E|].
    rewrite E in Hs. discriminate. }
  unfold nth_call.
  rewrite (@poll_drained W n _ (r_world (DoAvailable self w)) E).
  cbn [fst snd]. split; [now apply DoAvailable_drained | reflexivity].
Qed.

End Scheduler.

(** ** The scenarios, run *)

(** C2 as stated fails on scenario C: the scan invokes nothing, the orphan
    is still pending, and [DoAvailable] returns [running], not [stuck]. *)
Lemma orphan_reported_running :
  TaskList.Size (TaskList.r_list (TaskList.DoAvailable Scenario.orphan tt)) = 1 /\
  TaskList.r_trace (TaskList.DoAvailable Scenario.orphan tt) = [] /\
  TaskList.r_status (TaskList.DoAvailable Scenario.orphan tt)
    = TaskListStatus.running.
Proof. repeat split. Qed.

(** Scenario C through four calls: the orphan stays and the status stays
    [running]. *)
Lemma DoAvailable_running_not_stuck_witness :
  TaskList.r_status (TaskList.nth_call 3 Scenario.orphan tt)
    = TaskListStatus.running /\
  In (BaseTask.make (TaskID.Set_ 1) (@Scenario.always_complete unit)
                    (TaskID.Set_ 5))
     (TaskList._task_list
        (TaskList.r_list (TaskList.nth_call 3 Scenario.orphan tt))).
Proof.
  destruct (proj2 (proj2 (DoAvailable_running_not_stuck Scenario.orphan tt))
              (BaseTask.make (TaskID.Set_ 1) (@Scenario.always_complete unit)
                             (TaskID.Set_ 5)) 0 4%N) with (n := 3)
    as (Hs & Hin & _).
  - repeat constructor.
  - left. reflexivity.
  - reflexivity.
  - reflexivity.
  - intros t0 [<-|[]]. reflexivity.
  - split; [exact Hs | exact Hin].
Defined.

(** In [Scenario.chain] the second task depends on the first, which has not
    completed when the scan starts, and is invoked in that scan all the
    same. *)
Lemma DoAvailable_respects_dependencies_witness :
  TaskID.CheckDependencies (TaskList._tasks_completed Scenario.chain)
                           (TaskID.Set_ 1) = false /\
  exists e,
    In e (TaskList.r_trace (TaskList.DoAvailable Scenario.chain tt)) /\
    TaskList.ev_task e =
      BaseTask.make (TaskID.Set_ 2) (@Scenario.always_complete unit)
                    (TaskID.Set_ 1).
Proof.
  split; [reflexivity|].
  apply (proj2 (proj2 (DoAvailable_respects_dependencies Scenario.chain tt))
               [BaseTask.make (TaskID.Set_ 1) (@Scenario.always_complete unit)
                              TaskID.empty] []).
  - reflexivity.
  - apply TaskIDFacts.CheckDependencies_iff. reflexivity.
Defined.

(** The first call on [Scenario.exchange]: the receive is invoked, returns
    [incomplete] and stays; the task depending on it is not invoked and
    stays. *)
Lemma DoAvailable_retires_completed_only_witness :
  Sched.Retire (TaskList._task_list Scenario.exchange)
               (TaskList.r_trace (TaskList.DoAvailable Scenario.exchange 0))
               (TaskList._task_list
                  (TaskList.r_list (TaskList.DoAvailable Scenario.exchange 0))) /\
  TaskList._task_list (TaskList.r_list (TaskList.DoAvailable Scenario.exchange 0))
    = TaskList._task_list Scenario.exchange.
Proof.
  split; [|reflexivity].
  apply (@DoAvailable_retires_completed_only nat Scenario.exchange 0).
  repeat constructor.
Defined.

(** [Scenario.chain] is drained by its first call; three calls later nothing
    has changed. *)
Lemma DoAvailable_idempotent_once_complete_witness :
  TaskList.poll 3
    (TaskList.r_list (TaskList.DoAvailable Scenario.chain tt))
    (TaskList.r_world (TaskList.DoAvailable Scenario.chain tt)) =
  (TaskList.r_list (TaskList.DoAvailable Scenario.chain tt),
   TaskList.r_world (TaskList.DoAvailable Scenario.chain tt)).
Proof.
  apply (@DoAvailable_idempotent_once_complete unit Scenario.chain tt).
  reflexivity.
Defined.

(** * [Reset], [IsReady] and [AddTask] *)

Section Bookkeeping.
Variable W : Type.
Import TaskList Sched.
Local Abbreviation Task := (BaseTask.t W).
Local Abbreviation Event := (TaskList.Event W).

(** C10: [Reset] empties the pending collection, the completed-set, the
    identity counter and the list of registered barrier lists; so [IsReady]
    returns true right after [Reset], whatever lists were registered before
    and whatever their state (or that of the heap) is. *)
Theorem Reset_clears_barriers (self : t W) (heap : Heap W) :
  _task_list (Reset self) = [] /\
  _tasks_added (Reset self) = 0%N /\
  _dependencies (Reset self) = [] /\
  TaskID.eqb (_tasks_completed (Reset self)) TaskID.empty = true /\
  IsReady heap (Reset self) = Some true.
Proof.
  repeat split. apply TaskIDFacts.eqb_iff. intros blk off.
  cbn [Reset _tasks_completed].
  now rewrite TaskIDFacts.bit_clear, TaskIDFacts.bit_empty.
Qed.

Lemma same_refl (self : t W) : same self self.
Proof. repeat split. Qed.

Lemma same_Reset_init (self : t W) : same (Reset self) (init W).
Proof.
  repeat split. intros blk off. cbn [Reset init _tasks_completed].
  now rewrite TaskIDFacts.bit_clear, TaskIDFacts.bit_empty.
Qed.

Lemma visit_same (task : Task) (c1 c2 : TaskID.t) (w : W) :
  TaskID.equiv c1 c2 ->
  l_tasks (visit task c1 w) = l_tasks (visit task c2 w) /\
  l_world (visit task c1 w) = l_world (visit task c2 w) /\
  TaskID.equiv (l_completed (visit task c1 w)) (l_completed (visit task c2 w)) /\
  Forall2 (@same_event W) (l_trace (visit task c1 w)) (l_trace (visit task c2 w)).
Proof.
  intros E. unfold visit.
  rewrite (TaskIDFacts.CheckDependencies_equiv (BaseTask.GetDependency task) E).
  destruct (TaskID.CheckDependencies c2 (BaseTask.GetDependency task)).
  - destruct (BaseTask.call task w) as [[|] w'];
      cbn [l_tasks l_world l_completed l_trace]; repeat split;
      auto using TaskIDFacts.SetFinished_equiv;
      repeat constructor; assumption.
  - cbn [l_tasks l_world l_completed l_trace]. repeat split; auto.
Qed.

Lemma scan_same (tasks : list Task) (c1 c2 : TaskID.t) (w : W) :
  TaskID.equiv c1 c2 ->
  l_tasks (scan tasks c1 w) = l_tasks (scan tasks c2 w) /\
  l_world (scan tasks c1 w) = l_world (scan tasks c2 w) /\
  TaskID.equiv (l_completed (scan tasks c1 w)) (l_completed (scan tasks c2 w)) /\
  Forall2 (@same_event W) (l_trace (scan tasks c1 w)) (l_trace (scan tasks c2 w)).
Proof.
  revert c1 c2 w. induction tasks as [|task rest IH]; intros c1 c2 w E.
  - cbn [scan l_tasks l_world l_completed l_trace]. repeat split; auto.
  - rewrite !scan_cons. cbv zeta. cbn [l_tasks l_world l_completed l_trace].
    destruct (visit_same task w E) as (Ht & Hw & Hc & Htr).
    rewrite Hw.
    destruct (IH _ _ (l_world (visit task c2 w)) Hc) as (Ht' & Hw' & Hc' & Htr').
    split; [congruence | split; [exact Hw' | split; [exact Hc'|]]].
    now apply Forall2_app.
Qed.

Lemma DoAvailable_same (l1 l2 : t W) (w : W) :
  same l1 l2 ->
  same (r_list (DoAvailable l1 w)) (r_list (DoAvailable l2 w)) /\
  r_world (DoAvailable l1 w) = r_world (DoAvailable l2 w) /\
  r_status (DoAvailable l1 w) = r_status (DoAvailable l2 w) /\
  Forall2 (@same_event W) (r_trace (DoAvailable l1 w)) (r_trace (DoAvailable l2 w)).
Proof.
  intros (Et & Ea & Ed & Ec).
  destruct (scan_same (_task_list l1) w Ec) as (Ht & Hw & Hc & Htr).
  assert (P : _task_list (r_list (DoAvailable l1 w)) =
              _task_list (r_list (DoAvailable l2 w))).
  { rewrite !DoAvailable_pending, Ht, Et. reflexivity. }
  repeat split.
  - exact P.
  - exact Ea.
  - exact Ed.
  - cbn [DoAvailable r_list ClearComplete _tasks_completed]. now rewrite <- Et.
  - rewrite !DoAvailable_world, Hw, Et. reflexivity.
  - change (r_status (DoAvailable l1 w))
      with (if IsComplete (r_list (DoAvailable l1 w))
            then TaskListStatus.complete else TaskListStatus.running).
    change (r_status (DoAvailable l2 w))
      with (if IsComplete (r_list (DoAvailable l2 w))
            then TaskListStatus.complete else TaskListStatus.running).
    unfold IsComplete. now rewrite P.
  - rewrite !DoAvailable_trace, <- Et. exact Htr.
Qed.

Lemma AddTask_same (l1 l2 : t W) (func : BaseTask.TaskFunc W) (d : TaskID.t) :
  same l1 l2 ->
  fst (AddTask l1 func d) = fst (AddTask l2 func d) /\
  same (snd (AddTask l1 func d)) (snd (AddTask l2 func d)).
Proof.
  intros (Et & Ea & Ed & Ec). unfold AddTask. cbn [fst snd].
  rewrite Et, Ea. repeat split; assumption.
Qed.

Lemma exec_same (d1 d2 : Driver W) (c : Call W) :
  same_driver d1 d2 -> same_driver (exec d1 c) (exec d2 c).
Proof.
  intros (Hl & Hw & Hi & Hs & Htr). destruct c as [args|]; cbn [exec].
  - rewrite Hi. destruct (args (d_ids d2)) as [func d].
    destruct (AddTask_same func d Hl) as (Eid & Hl').
    destruct (AddTask (d_list d1) func d) as [id1 l1'],
             (AddTask (d_list d2) func d) as [id2 l2'].
    cbn [fst snd] in Eid, Hl'. subst id2.
    repeat split; cbn [d_list d_world d_ids d_statuses d_trace];
      try apply Hl'; congruence || assumption.
  - destruct (DoAvailable_same (d_world d1) Hl) as (Hl' & Hw' & Hs' & Htr').
    rewrite <- Hw in *.
    repeat split; cbn [d_list d_world d_ids d_statuses d_trace];
      try apply Hl'; try congruence.
    now apply Forall2_app.
Qed.

Lemma execute_same (calls : list (Call W)) (d1 d2 : Driver W) :
  same_driver d1 d2 -> same_driver (execute d1 calls) (execute d2 calls).
Proof.
  revert d1 d2. induction calls as [|c calls IH]; intros d1 d2 S; [exact S|].
  cbn [execute fold_left]. apply IH. now apply exec_same.
Qed.

Lemma Forall2_same_event_tasks (tr1 tr2 : list Event) :
  Forall2 (@same_event W) tr1 tr2 ->
  map (@ev_task W) tr1 = map (@ev_task W) tr2 /\
  map (@ev_status W) tr1 = map (@ev_status W) tr2.
Proof.
  induction 1 as [|e1 e2 tr1 tr2 (Et & Es & _) _ [IH1 IH2]]; [now split|].
  cbn [map]. split; congruence.
Qed.

(** C9: after [Reset], a sequence of [AddTask] and [DoAvailable] calls
    behaves as on a freshly constructed list: the same identities are
    minted, the same tasks are invoked in the same order with the same
    results, the calls return the same statuses and leave the same pending
    tasks and the same state, and the completed-sets are equal
    ([operator==]). *)
Theorem Reset_then_replay (self : t W) (w : W) (calls : list (Call W)) :
  d_ids (execute (start (Reset self) w) calls) =
    d_ids (execute (start (init W) w) calls) /\
  map (@ev_task W) (d_trace (execute (start (Reset self) w) calls)) =
    map (@ev_task W) (d_trace (execute (start (init W) w) calls)) /\
  map (@ev_status W) (d_trace (execute (start (Reset self) w) calls)) =
    map (@ev_status W) (d_trace (execute (start (init W) w) calls)) /\
  d_statuses (execute (start (Reset self) w) calls) =
    d_statuses (execute (start (init W) w) calls) /\
  d_world (execute (start (Reset self) w) calls) =
    d_world (execute (start (init W) w) calls) /\
  _task_list (d_list (execute (start (Reset self) w) calls)) =
    _task_list (d_list (execute (start (init W) w) calls)) /\
  _tasks_added (d_list (execute (start (Reset self) w) calls)) =
    _tasks_added (d_list (execute (start (init W) w) calls)) /\
  TaskID.eqb (_tasks_completed (d_list (execute (start (Reset self) w) calls)))
             (_tasks_completed (d_list (execute (start (init W) w) calls)))
    = true.
Proof.
  assert (S : same_driver (execute (start (Reset self) w) calls)
                          (execute (start (init W) w) calls)).
  { apply execute_same. unfold start. repeat split; cbn; auto.
    intros blk off. now rewrite TaskIDFacts.bit_clear, TaskIDFacts.bit_empty. }
  destruct S as ((Et & Ea & _ & Ec) & Hw & Hi & Hs & Htr).
  apply Forall2_same_event_tasks in Htr. destruct Htr as [H1 H2].
  repeat split; try assumption. now apply TaskIDFacts.eqb_iff.
Qed.

End Bookkeeping.

Section Building.
Variable W : Type.
Import TaskList Sched.
Local Abbreviation Task := (BaseTask.t W).
Local Abbreviation Event := (TaskList.Event W).

Lemma execute_snoc (d : Driver W) (calls : list (Call W)) (c : Call W) :
  execute d (calls ++ [c]) = exec (execute d calls) c.
Proof. unfold execute. now rewrite fold_left_app. Qed.

Lemma added_snoc (calls : list (Call W)) (c : Call W) :
  added (calls ++ [c]) = added calls + (if is_AddTask c then 1 else 0).
Proof.
  unfold added. rewrite filter_app, length_app. cbn [filter].
  now destruct (is_AddTask c).
Qed.

Lemma minted_S (n : nat) :
  minted (S n) = minted n ++ [TaskID.Set_ (N.of_nat (S n))].
Proof. unfold minted. now rewrite seq_S, map_app. Qed.

Lemma length_minted (n : nat) : length (minted n) = n.
Proof. unfold minted. now rewrite length_map, length_seq. Qed.

Lemma nth_error_minted (n i : nat) :
  i < n -> nth_error (minted n) i = Some (TaskID.Set_ (N.of_nat (S i))).
Proof.
  intros H. unfold minted. rewrite nth_error_map, nth_error_seq.
  apply Nat.ltb_lt in H. now rewrite H.
Qed.

(** The counter and the identities handed out, from a list whose counter
    is zero. *)
Lemma execute_counts (l0 : t W) (w : W) (calls : list (Call W)) :
  _tasks_added l0 = 0%N ->
  d_ids (execute (start l0 w) calls) = minted (added calls) /\
  _tasks_added (d_list (execute (start l0 w) calls)) = N.of_nat (added calls).
Proof.
  intros H0. induction calls as [|c calls [IHi IHa]] using rev_ind.
  - split; [reflexivity | exact H0].
  - rewrite execute_snoc, added_snoc. destruct c as [args|]; cbn [exec is_AddTask].
    + destruct (args (d_ids (execute (start l0 w) calls))) as [func d].
      unfold AddTask. cbn [d_ids d_list _tasks_added].
      rewrite IHi, IHa, Nat.add_1_r, minted_S. split; [|lia].
      do 3 f_equal. lia.
    + cbn [d_ids d_list]. rewrite Nat.add_0_r, DoAvailable_tasks_added. auto.
Qed.

(** Whatever a caller does with a constructed or [Reset] list, no pending
    task ends up flagged. *)
Lemma clean_execute (l0 : t W) (w : W) (calls : list (Call W)) :
  clean l0 -> clean (d_list (execute (start l0 w) calls)).
Proof.
  intros C. induction calls as [|c calls IH] using rev_ind; [exact C|].
  rewrite execute_snoc. destruct c as [args|]; cbn [exec].
  - destruct (args (d_ids (execute (start l0 w) calls))) as [func d].
    apply (clean_AddTask func d) in IH.
    now destruct (AddTask (d_list (execute (start l0 w) calls)) func d).
  - apply clean_DoAvailable.
Qed.

(** C8: the [k]-th [AddTask] call since construction or the last [Reset]
    (with [k] within the range of the [int] counter), whatever calls of
    [AddTask] and [DoAvailable] came before and whatever its arguments,
    returns the identity built from index [k], which carries index [k] and
    no other, and appends a task with that identity and the given
    dependency; the identities returned so far are those of 1, ..., [k]. *)
Theorem AddTask_mints_successive_identities
        (l0 : t W) (w : W) (before : list (Call W))
        (args : list TaskID.t -> BaseTask.TaskFunc W * TaskID.t) :
  l0 = init W \/ (exists self, l0 = Reset self) ->
  (N.of_nat (S (added before)) <= INT_MAX)%N ->
  let d0 := execute (start l0 w) before in
  let func := fst (args (d_ids d0)) in
  let d := snd (args (d_ids d0)) in
  let k := N.of_nat (S (added before)) in
  d_ids d0 = minted (added before) /\
  fst (AddTask (d_list d0) func d) = TaskID.Set_ k /\
  (forall j, (1 <= j)%N ->
     TaskID.has (fst (AddTask (d_list d0) func d)) j = true <-> j = k) /\
  _task_list (snd (AddTask (d_list d0) func d))
    = _task_list (d_list d0) ++ [BaseTask.make (TaskID.Set_ k) func d] /\
  _tasks_added (snd (AddTask (d_list d0) func d)) = k /\
  d_list (exec d0 (CallAddTask args)) = snd (AddTask (d_list d0) func d) /\
  d_ids (exec d0 (CallAddTask args)) = minted (S (added before)).
Proof.
  intros Hl0 _ d0 func d k.
  assert (H0 : _tasks_added l0 = 0%N)
    by (destruct Hl0 as [->|[self ->]]; reflexivity).
  destruct (@execute_counts l0 w before H0) as [Hi Ha]. fold d0 in Hi, Ha.
  assert (Ek : (_tasks_added (d_list d0) + 1)%N = k) by (unfold k; lia).
  assert (Ex : exec d0 (CallAddTask args) =
               MkDriver (snd (AddTask (d_list d0) func d)) (d_world d0)
                        (d_ids d0 ++ [fst (AddTask (d_list d0) func d)])
                        (d_statuses d0) (d_trace d0)).
  { cbn [exec]. unfold func, d. now destruct (args (d_ids d0)). }
  rewrite Ex. unfold AddTask. cbn [fst snd _task_list _tasks_added d_list d_ids].
  rewrite Ek. split; [exact Hi|]. split; [reflexivity|].
  split; [|split; [|split; [|split]]]; try reflexivity.
  - intros j Hj. rewrite TaskIDBits.has_Set by exact Hj. split; congruence.
  - rewrite Hi, minted_S. reflexivity.
Qed.

Lemma visit_complete (task : Task) (c : TaskID.t) (w : W) :
  TaskID.CheckDependencies c (BaseTask.GetDependency task) = true ->
  fst (BaseTask.call task w) = complete ->
  visit task c w =
    MkLoop (BaseTask.SetComplete task)
           (TaskID.SetFinished c (BaseTask.GetID task))
           (snd (BaseTask.call task w)) [Ev task c complete].
Proof.
  intros D S.
  destruct (visit_cases task c w) as [[D' _]|[(_ & S' & _)|(_ & _ & E)]];
    congruence.
Qed.

Lemma visit_incomplete (task : Task) (c : TaskID.t) (w : W) :
  TaskID.CheckDependencies c (BaseTask.GetDependency task) = true ->
  fst (BaseTask.call task w) = incomplete ->
  visit task c w =
    MkLoop task c (snd (BaseTask.call task w)) [Ev task c incomplete].
Proof.
  intros D S.
  destruct (visit_cases task c w) as [[D' _]|[(_ & _ & E)|(_ & S' & _)]];
    congruence.
Qed.

(** C4 (scenario A): on a list holding exactly [T1] without dependency,
    [T2] depending on [T1] and [T3] depending on [T1 | T2], added in that
    order, with bodies that return [complete], one call of [DoAvailable]
    invokes the three once each, in that order, retires them all and
    returns [complete]. *)
Theorem scenario_A_drains_in_one_scan
        (self : t W) (w : W) (f1 f2 f3 : BaseTask.TaskFunc W) :
  _task_list self = [] ->
  (forall w', fst (f1 w') = complete) ->
  (forall w', fst (f2 w') = complete) ->
  (forall w', fst (f3 w') = complete) ->
  let a1 := AddTask self f1 TaskID.empty in
  let a2 := AddTask (snd a1) f2 (fst a1) in
  let a3 := AddTask (snd a2) f3 (fst a1 |' fst a2) in
  let r := DoAvailable (snd a3) w in
  _task_list (snd a3) =
    [BaseTask.make (fst a1) f1 TaskID.empty;
     BaseTask.make (fst a2) f2 (fst a1);
     BaseTask.make (fst a3) f3 (fst a1 |' fst a2)] /\
  map (@ev_task W) (r_trace r) = _task_list (snd a3) /\
  map (@ev_status W) (r_trace r) = [complete; complete; complete] /\
  _task_list (r_list r) = [] /\
  r_status r = TaskListStatus.complete /\
  r_world r = snd (f3 (snd (f2 (snd (f1 w))))) /\
  TaskID.CheckDependencies (_tasks_completed (r_list r))
                           (fst a1 |' fst a2 |' fst a3) = true.
Proof.
  intros E H1 H2 H3.
  destruct self as [tasks n deps c]. cbn [_task_list] in E. subst tasks.
  unfold AddTask. cbn [fst snd _task_list _tasks_added _dependencies
                       _tasks_completed app].
  set (i1 := TaskID.Set_ (n + 1)).
  set (i2 := TaskID.Set_ (n + 1 + 1)).
  set (i3 := TaskID.Set_ (n + 1 + 1 + 1)).
  set (T1 := BaseTask.make i1 f1 TaskID.empty).
  set (T2 := BaseTask.make i2 f2 i1).
  set (T3 := BaseTask.make i3 f3 (i1 |' i2)).
  cbv zeta.
  assert (S : scan [T1; T2; T3] c w =
              MkLoop [BaseTask.SetComplete T1; BaseTask.SetComplete T2;
                      BaseTask.SetComplete T3]
                     (TaskID.SetFinished
                        (TaskID.SetFinished (TaskID.SetFinished c i1) i2) i3)
                     (snd (f3 (snd (f2 (snd (f1 w))))))
                     [Ev T1 c complete;
                      Ev T2 (TaskID.SetFinished c i1) complete;
                      Ev T3 (TaskID.SetFinished (TaskID.SetFinished c i1) i2)
                         complete]).
  { rewrite scan_cons. cbv zeta.
    rewrite (@visit_complete T1 c w (TaskIDFacts.CheckDependencies_empty c) (H1 w)).
    cbn [l_tasks l_completed l_world l_trace].
    rewrite scan_cons. cbv zeta. rewrite visit_complete.
    2:{ apply TaskIDFacts.CheckDependencies_iff,
              TaskIDFacts.subset_SetFinished_r. }
    2:{ apply H2. }
    cbn [l_tasks l_completed l_world l_trace].
    rewrite scan_cons. cbv zeta. rewrite visit_complete.
    2:{ apply TaskIDFacts.CheckDependencies_both. split;
          apply TaskIDFacts.CheckDependencies_iff.
        - eapply TaskIDFacts.subset_trans;
            [apply TaskIDFacts.subset_SetFinished_r
            |apply TaskIDFacts.subset_SetFinished_l].
        - apply TaskIDFacts.subset_SetFinished_r. }
    2:{ apply H3. }
    reflexivity. }
  unfold DoAvailable. cbn [_task_list _tasks_completed]. rewrite S.
  cbn [l_tasks l_completed l_world l_trace r_trace r_list r_status r_world
       ClearComplete _task_list _tasks_completed filter map ev_task ev_status
       BaseTask.SetComplete BaseTask.IsComplete BaseTask._complete negb
       IsComplete].
  repeat split.
  apply TaskIDFacts.CheckDependencies_both. split; [apply TaskIDFacts.CheckDependencies_both; split|];
    apply TaskIDFacts.CheckDependencies_iff.
  - eapply TaskIDFacts.subset_trans;
      [|apply TaskIDFacts.subset_SetFinished_l].
    eapply TaskIDFacts.subset_trans;
      [apply TaskIDFacts.subset_SetFinished_r
      |apply TaskIDFacts.subset_SetFinished_l].
  - eapply TaskIDFacts.subset_trans;
      [apply TaskIDFacts.subset_SetFinished_r
      |apply TaskIDFacts.subset_SetFinished_l].
  - apply TaskIDFacts.subset_SetFinished_r.
Qed.

End Building.

(** Scenario A on a fresh list. *)
Lemma scenario_A_drains_in_one_scan_witness :
  TaskList.r_status (TaskList.DoAvailable Scenario.three tt)
    = TaskListStatus.complete /\
  TaskList._task_list (TaskList.r_list (TaskList.DoAvailable Scenario.three tt))
    = [].
Proof.
  destruct (@scenario_A_drains_in_one_scan unit (TaskList.init unit) tt
              (@Scenario.always_complete unit) (@Scenario.always_complete unit)
              (@Scenario.always_complete unit))
    as (_ & _ & _ & Hl & Hs & _).
  - reflexivity.
  - intros w'. reflexivity.
  - intros w'. reflexivity.
  - intros w'. reflexivity.
  - split; [exact Hs | exact Hl].
Defined.

(** The second [AddTask] of [Scenario.caller], made after a [DoAvailable]
    and with the first identity as its dependency, returns the identity of
    index 2. *)
Lemma AddTask_mints_successive_identities_witness :
  fst (TaskList.AddTask
         (TaskList.d_list
            (TaskList.execute (TaskList.start (TaskList.init unit) tt)
                              Scenario.caller))
         (@Scenario.always_complete unit) (TaskID.Set_ 1))
    = TaskID.Set_ 2.
Proof.
  destruct (@AddTask_mints_successive_identities unit (TaskList.init unit) tt
              Scenario.caller Scenario.after_first)
    as (_ & H & _).
  - left. reflexivity.
  - vm_compute. discriminate.
  - exact H.
Defined.

(** A gated list is not ready; after [Reset] it is. *)
Example gated_ready_after_Reset :
  TaskList.IsReady Scenario.heap Scenario.gated = Some false /\
  TaskList.IsReady Scenario.heap (TaskList.Reset Scenario.gated) = Some true.
Proof. split; reflexivity. Qed.

(** * Tasks that are polled until they complete *)

Section Retry.
Variable W : Type.
Import TaskList Sched.
Local Abbreviation Task := (BaseTask.t W).
Local Abbreviation Event := (TaskList.Event W).
Local Abbreviation dep := (@BaseTask.GetDependency W).
Local Abbreviation id := (@BaseTask.GetID W).
Local Abbreviation unflagged :=
  (fun task : Task => negb (BaseTask.IsComplete task)).

Variable polls : W -> nat.
Variable N : nat.
Variable T : Task.
Variable others : Task -> Prop.
Hypothesis T_polling : polling polls N T.
Hypothesis others_quiet : forall task, others task -> quiet polls task.

Lemma T_not_other (w : W) (task : Task) : others task -> task <> T.
Proof.
  intros O ->. pose proof (others_quiet O w) as Q.
  destruct T_polling as (Hc & _). rewrite Hc in Q. lia.
Qed.

Lemma visit_quiet (task : Task) (c : TaskID.t) (w : W) :
  quiet polls task -> polls (l_world (visit task c w)) = polls w.
Proof.
  intros Q.
  destruct (visit_cases task c w) as [[_ E]|[(_ & _ & E)|(_ & _ & E)]];
    rewrite E; cbn [l_world]; auto.
Qed.

Lemma scan_quiet (tasks : list Task) (c : TaskID.t) (w : W) :
  Forall others tasks -> polls (l_world (scan tasks c w)) = polls w.
Proof.
  intros F. revert c w. induction F as [|task rest O F IH]; intros c w.
  - reflexivity.
  - rewrite scan_cons. cbv zeta. cbn [l_world]. rewrite IH.
    apply visit_quiet. now apply others_quiet.
Qed.

Lemma scan_kept (tasks : list Task) (c : TaskID.t) (w : W) :
  Forall (fun task => BaseTask.IsComplete task = false) tasks ->
  Forall others tasks ->
  Forall others (filter unflagged (l_tasks (scan tasks c w))).
Proof.
  intros C F. apply Forall_forall. intros task Hin.
  rewrite Forall_forall in F. apply F.
  eapply Retire_incl; [apply scan_Retire, C | exact Hin].
Qed.

Lemma scan_log_others (tasks : list Task) (c : TaskID.t) (w : W) (e : Event) :
  Forall others tasks -> In e (l_trace (scan tasks c w)) -> others (ev_task e).
Proof.
  intros F Hin. apply in_split in Hin. destruct Hin as (pre & post & E).
  apply scan_log in E. destruct E as (_ & _ & H).
  rewrite Forall_forall in F. now apply F.
Qed.

Lemma scan_around (earlier later : list Task) (c : TaskID.t) (w : W) :
  scan (earlier ++ T :: later) c w =
    let ra := scan earlier c w in
    let v := visit T (l_completed ra) (l_world ra) in
    let rb := scan later (l_completed v) (l_world v) in
    MkLoop (l_tasks ra ++ l_tasks v :: l_tasks rb) (l_completed rb)
           (l_world rb) (l_trace ra ++ l_trace v ++ l_trace rb).
Proof. rewrite scan_app. cbv zeta. rewrite scan_cons. reflexivity. Qed.

(** One call on a list where [T] waits: [T] is invoked once, and stays or
    goes by what its body returns. *)
Lemma DoAvailable_waiting (self : t W) (w : W) (s : TaskStatus) :
  waiting others T self ->
  (forall w', polls w' = polls w -> fst (BaseTask.call T w') = s) ->
  polls (r_world (DoAvailable self w)) = S (polls w) /\
  (exists log1 seen log2,
      r_trace (DoAvailable self w) = log1 ++ Ev T seen s :: log2 /\
      forall e, In e (log1 ++ log2) -> others (ev_task e)) /\
  match s with
  | incomplete => waiting others T (r_list (DoAvailable self w))
  | complete => retired others (r_list (DoAvailable self w))
  end.
Proof.
  intros (C & D & earlier & later & E & F) Hs.
  apply Forall_app in F. destruct F as [Fe Fl].
  pose proof C as C'. unfold clean in C'. rewrite E in C'.
  apply Forall_app in C'. destruct C' as [Ce CTl].
  inversion CTl as [|? ? CT Cl]; subst.
  set (c := _tasks_completed self) in *.
  set (ra := scan earlier c w).
  assert (Pa : polls (l_world ra) = polls w) by now apply scan_quiet.
  assert (Da : TaskID.CheckDependencies (l_completed ra) (dep T) = true).
  { eapply TaskIDFacts.CheckDependencies_mono; [apply scan_subset | exact D]. }
  specialize (Hs _ Pa).
  destruct T_polling as (Hcount & _).
  assert (S : exists v,
             visit T (l_completed ra) (l_world ra) = v /\
             l_world v = snd (BaseTask.call T (l_world ra)) /\
             l_trace v = [Ev T (l_completed ra) s] /\
             TaskID.subset (l_completed ra) (l_completed v) /\
             l_tasks v = match s with
                         | incomplete => T
                         | complete => BaseTask.SetComplete T
                         end).
  { eexists. split; [reflexivity|]. destruct s.
    - rewrite (@visit_complete W T _ _ Da Hs). cbn [l_world l_trace l_completed l_tasks].
      repeat split. apply TaskIDFacts.subset_SetFinished_l.
    - rewrite (@visit_incomplete W T _ _ Da Hs).
      cbn [l_world l_trace l_completed l_tasks].
      repeat split. apply TaskIDFacts.subset_refl. }
  destruct S as (v & Ev & Vw & Vtr & Vc & Vt).
  set (rb := scan later (l_completed v) (l_world v)).
  assert (Pb : polls (l_world rb) = S (polls w)).
  { unfold rb. rewrite scan_quiet by exact Fl. now rewrite Vw, Hcount, Pa. }
  assert (Sc : scan (_task_list self) c w =
               MkLoop (l_tasks ra ++ l_tasks v :: l_tasks rb) (l_completed rb)
                      (l_world rb) (l_trace ra ++ l_trace v ++ l_trace rb)).
  { rewrite E, scan_around. cbv zeta. fold ra. rewrite Ev. reflexivity. }
  assert (Ke : Forall others (filter unflagged (l_tasks ra)))
    by now apply scan_kept.
  assert (Kl : Forall others (filter unflagged (l_tasks rb)))
    by now apply scan_kept.
  split; [|split].
  - rewrite DoAvailable_world. fold c. now rewrite Sc.
  - exists (l_trace ra), (l_completed ra), (l_trace rb). split.
    + rewrite DoAvailable_trace. fold c. rewrite Sc. cbn [l_trace].
      now rewrite Vtr.
    + intros e He. apply in_app_or in He.
      destruct He as [He|He]; eapply scan_log_others;
        [exact Fe | exact He | exact Fl | exact He].
  - assert (P : _task_list (r_list (DoAvailable self w)) =
                filter unflagged (l_tasks ra) ++
                filter unflagged (l_tasks v :: l_tasks rb)).
    { rewrite DoAvailable_pending. fold c. rewrite Sc. cbn [l_tasks].
      apply filter_app. }
    destruct s; rewrite Vt in P; cbn [filter] in P.
    + cbn [BaseTask.SetComplete BaseTask.IsComplete BaseTask._complete negb] in P.
      split; [apply clean_DoAvailable|]. rewrite P. now apply Forall_app.
    + rewrite CT in P. cbn [negb] in P. split; [apply clean_DoAvailable|]. split.
      * change (_tasks_completed (r_list (DoAvailable self w)))
          with (l_completed (scan (_task_list self) c w)).
        rewrite Sc. cbn [l_completed].
        eapply TaskIDFacts.CheckDependencies_mono; [|exact Da].
        eapply TaskIDFacts.subset_trans; [exact Vc | apply scan_subset].
      * exists (filter unflagged (l_tasks ra)), (filter unflagged (l_tasks rb)).
        split; [exact P | now apply Forall_app].
Qed.

(** One call on a list that [T] has left. *)
Lemma DoAvailable_retired (self : t W) (w : W) :
  retired others self ->
  retired others (r_list (DoAvailable self w)) /\
  polls (r_world (DoAvailable self w)) = polls w /\
  forall e, In e (r_trace (DoAvailable self w)) -> others (ev_task e).
Proof.
  intros [C F]. split; [split|split].
  - apply clean_DoAvailable.
  - rewrite DoAvailable_pending. now apply scan_kept.
  - rewrite DoAvailable_world. now apply scan_quiet.
  - intros e He. rewrite DoAvailable_trace in He.
    eapply scan_log_others; eassumption.
Qed.

Lemma poll_add (a b : nat) (self : t W) (w : W) :
  poll (a + b) self w = poll b (fst (poll a self w)) (snd (poll a self w)).
Proof.
  revert self w. induction a as [|a IH]; intros self w; [reflexivity|].
  cbn [Nat.add]. rewrite !poll_S. apply IH.
Qed.

Lemma poll_waiting (n : nat) (self : t W) (w : W) :
  waiting others T self -> polls w + n <= N ->
  waiting others T (fst (poll n self w)) /\
  polls (snd (poll n self w)) = polls w + n.
Proof.
  revert self w. induction n as [|n IH]; intros self w Wt Hn.
  - cbn [poll fst snd]. split; [exact Wt | lia].
  - rewrite poll_S.
    destruct T_polling as (_ & Hinc & _).
    destruct (@DoAvailable_waiting self w incomplete Wt) as (Hp & _ & Wt').
    { intros w' E. apply Hinc. lia. }
    destruct (IH _ (r_world (DoAvailable self w)) Wt') as [H1 H2]; [lia|].
    split; [exact H1 | lia].
Qed.

Lemma poll_retired (n : nat) (self : t W) (w : W) :
  retired others self ->
  retired others (fst (poll n self w)) /\
  polls (snd (poll n self w)) = polls w.
Proof.
  revert self w. induction n as [|n IH]; intros self w R.
  - now split.
  - rewrite poll_S. destruct (DoAvailable_retired w R) as (R' & Hp & _).
    destruct (IH _ (r_world (DoAvailable self w)) R') as [H1 H2].
    split; [exact H1 | congruence].
Qed.

(** The identities of the tasks that satisfy [others] lack a bit that is
    not completed: as long as [T] returns [incomplete] the bit stays out of
    the completed-set, and no task whose dependency holds it is invoked. *)
Lemma DoAvailable_waiting_unseen (self : t W) (w : W) (blk : nat) (off : BinNums.N) :
  (forall task, others task -> TaskID.bit (id task) blk off = false) ->
  waiting others T self -> polls w < N ->
  TaskID.bit (_tasks_completed self) blk off = false ->
  TaskID.bit (_tasks_completed (r_list (DoAvailable self w))) blk off = false /\
  forall e, In e (r_trace (DoAvailable self w)) ->
            TaskID.bit (dep (ev_task e)) blk off = false.
Proof.
  intros Ob Wt Hn Hc.
  destruct T_polling as (_ & Hinc & _).
  destruct (@DoAvailable_waiting self w incomplete Wt)
    as (_ & (log1 & seen & log2 & E & Ho) & _).
  { intros w' Ew. apply Hinc. lia. }
  assert (Hmarks : forall e, In e (r_trace (DoAvailable self w)) ->
                             ev_status e = complete ->
                             TaskID.bit (id (ev_task e)) blk off = false).
  { intros e He Hs. apply Ob, Ho. rewrite E in He.
    apply in_app_or in He. apply in_or_app.
    destruct He as [He|[<-|He]]; [now left | discriminate Hs | now right]. }
  split.
  - rewrite DoAvailable_completed, bit_completed_after; assumption.
  - intros e He. apply in_split in He. destruct He as (pre & post & Ee).
    pose proof Ee as Ee'. rewrite DoAvailable_trace in Ee'.
    apply scan_log in Ee'. destruct Ee' as (Hseen & Hchk & _).
    apply TaskIDFacts.CheckDependencies_iff in Hchk.
    destruct (TaskID.bit (dep (ev_task e)) blk off) eqn:B; [|reflexivity].
    apply Hchk in B. rewrite Hseen, bit_completed_after in B; [congruence|].
    intros e' He'. apply Hmarks. rewrite Ee. apply in_or_app. now left.
Qed.

Lemma poll_waiting_unseen (n : nat) (self : t W) (w : W) (blk : nat) (off : BinNums.N) :
  (forall task, others task -> TaskID.bit (id task) blk off = false) ->
  waiting others T self -> polls w + n <= N ->
  TaskID.bit (_tasks_completed self) blk off = false ->
  TaskID.bit (_tasks_completed (fst (poll n self w))) blk off = false.
Proof.
  intros Ob. revert self w. induction n as [|n IH]; intros self w Wt Hn Hc.
  - exact Hc.
  - rewrite poll_S.
    destruct T_polling as (_ & Hinc & _).
    destruct (@DoAvailable_waiting self w incomplete Wt) as (Hp & _ & Wt').
    { intros w' E. apply Hinc. lia. }
    apply IH; [exact Wt' | lia|].
    apply DoAvailable_waiting_unseen; (assumption || lia).
Qed.

End Retry.

Section RetryLaw.
Variable W : Type.
Import TaskList Sched.
Local Abbreviation Task := (BaseTask.t W).
Local Abbreviation Event := (TaskList.Event W).
Local Abbreviation dep := (@BaseTask.GetDependency W).
Local Abbreviation id := (@BaseTask.GetID W).

Lemma waiting_In (others : Task -> Prop) (T : Task) (self : t W) :
  waiting others T self -> In T (_task_list self).
Proof. intros (_ & _ & earlier & later & E & _). rewrite E. apply in_elt. Qed.

Lemma invoked_once_of_others (polls : W -> nat) (n : nat) (T : Task)
      (others : Task -> Prop) (w : W) (s : TaskStatus) (log : list Event) :
  polling polls n T ->
  (forall task, others task -> quiet polls task) ->
  (exists log1 seen log2,
      log = log1 ++ Ev T seen s :: log2 /\
      forall e, In e (log1 ++ log2) -> others (ev_task e)) ->
  invoked_once T s log.
Proof.
  intros P Q (log1 & seen & log2 & E & H). exists log1, seen, log2.
  split; [exact E|]. intros e He. eapply T_not_other; eauto.
Qed.

(** C5: let [T] be pending with its dependency satisfied, its body
    returning [incomplete] on its first [N] invocations and [complete] on
    invocation [N + 1] ([polls] counts them; the other tasks leave the count
    alone).  Under repeated [DoAvailable] calls, each of the calls 1, ...,
    [N] invokes [T] once, gets [incomplete], leaves [T] pending and returns
    [running]; call [N + 1] invokes [T] once, gets [complete] and retires
    it; no later call invokes [T], which stays out of the pending
    collection: [N + 1] invocations in all.  No task whose dependency holds
    a bit that only [T]'s identity can supply is invoked in the calls 1,
    ..., [N]; and a list holding [T] alone reports [complete] at call
    [N + 1]. *)
Theorem retry_law (polls : W -> nat) (N : nat) (self : t W) (w : W)
        (earlier later : list Task) (T : Task) :
  clean self ->
  _task_list self = earlier ++ T :: later ->
  TaskID.CheckDependencies (_tasks_completed self) (dep T) = true ->
  polls w = 0 ->
  polling polls N T ->
  Forall (quiet polls) (earlier ++ later) ->
  (forall n, n <= N ->
     polls (snd (poll n self w)) = n /\
     In T (_task_list (fst (poll n self w)))) /\
  (forall n, N < n ->
     polls (snd (poll n self w)) = S N /\
     ~ In T (_task_list (fst (poll n self w)))) /\
  (forall n, n < N ->
     r_status (nth_call n self w) = TaskListStatus.running /\
     invoked_once T incomplete (r_trace (nth_call n self w))) /\
  invoked_once T complete (r_trace (nth_call N self w)) /\
  (forall n e, N < n -> In e (r_trace (nth_call n self w)) -> ev_task e <> T) /\
  (forall blk off,
     TaskID.bit (id T) blk off = true ->
     TaskID.bit (_tasks_completed self) blk off = false ->
     (forall t0, In t0 (earlier ++ later) ->
                 TaskID.bit (id t0) blk off = false) ->
     forall n e, n < N -> In e (r_trace (nth_call n self w)) ->
                 TaskID.bit (dep (ev_task e)) blk off = false) /\
  (earlier = [] -> later = [] ->
   r_status (nth_call N self w) = TaskListStatus.complete).
Proof.
  intros C E D P0 TP Q.
  assert (QQ : forall task : Task, quiet polls task -> quiet polls task)
    by auto.
  assert (W0 : waiting (quiet polls) T self).
  { split; [exact C|]. split; [exact D|]. now exists earlier, later. }
  assert (Wn : forall n, n <= N ->
                 waiting (quiet polls) T (fst (poll n self w)) /\
                 polls (snd (poll n self w)) = n).
  { intros n Hn.
    destruct (@poll_waiting W polls N T (quiet polls) TP QQ n self w W0)
      as [H1 H2]; [lia|]. split; [exact H1 | lia]. }
  destruct TP as (Tc & Tinc & Tdone).
  assert (TP : polling polls N T) by (repeat split; assumption).
  assert (Last : retired (quiet polls) (r_list (nth_call N self w)) /\
                 polls (r_world (nth_call N self w)) = S N /\
                 invoked_once T complete (r_trace (nth_call N self w))).
  { destruct (Wn N (le_n N)) as [Wt Pn]. unfold nth_call.
    destruct (@DoAvailable_waiting W polls N T (quiet polls) TP QQ
                (fst (poll N self w)) (snd (poll N self w)) complete Wt)
      as (Hp & Hlog & R).
    { intros w' Ew. apply Tdone. congruence. }
    split; [exact R|]. split; [congruence|].
    eapply invoked_once_of_others; eauto. }
  destruct Last as (RN & PN & ION).
  assert (Rn : forall n, N < n ->
                 retired (quiet polls) (fst (poll n self w)) /\
                 polls (snd (poll n self w)) = S N).
  { intros n Hn. replace n with (S N + (n - S N)) by lia.
    rewrite poll_add, poll_succ_r. cbn [fst snd].
    destruct (@poll_retired W polls (quiet polls) QQ (n - S N)
                (r_list (nth_call N self w)) (r_world (nth_call N self w)) RN)
      as [H1 H2].
    split; [exact H1 | congruence]. }
  split; [|split; [|split; [|split; [|split; [|split]]]]].
  - intros n Hn. destruct (Wn n Hn) as [Wt Pn].
    split; [exact Pn | eapply waiting_In, Wt].
  - intros n Hn. destruct (Rn n Hn) as [[_ R] Pn]. split; [exact Pn|].
    intros Hin. rewrite Forall_forall in R.
    exact (@T_not_other W polls N T (quiet polls) TP QQ w T (R _ Hin) eq_refl).
  - intros n Hn. destruct (Wn n (Nat.lt_le_incl _ _ Hn)) as [Wt Pn].
    unfold nth_call.
    destruct (@DoAvailable_waiting W polls N T (quiet polls) TP QQ
                (fst (poll n self w)) (snd (poll n self w)) incomplete Wt)
      as (_ & Hlog & Wt').
    { intros w' Ew. apply Tinc. lia. }
    split.
    + destruct (DoAvailable_status (fst (poll n self w)) (snd (poll n self w)))
        as [[Enil _]|[_ Er]]; [|exact Er].
      apply waiting_In in Wt'. rewrite Enil in Wt'. contradiction.
    + eapply invoked_once_of_others; eauto.
  - exact ION.
  - intros n e Hn He. destruct (Rn n Hn) as [R _]. unfold nth_call in He.
    destruct (@DoAvailable_retired W polls (quiet polls) QQ
                (fst (poll n self w)) (snd (poll n self w)) R) as (_ & _ & Ho).
    exact (@T_not_other W polls N T (quiet polls) TP QQ w _ (Ho e He)).
  - intros blk off _ Hc Hids n e Hn He.
    set (others := fun task : Task =>
                     quiet polls task /\ TaskID.bit (id task) blk off = false).
    assert (Oq : forall task, others task -> quiet polls task)
      by (intros task [H _]; exact H).
    assert (Ob : forall task, others task ->
                              TaskID.bit (id task) blk off = false)
      by (intros task [_ H]; exact H).
    assert (W0' : waiting others T self).
    { split; [exact C|]. split; [exact D|]. exists earlier, later.
      split; [exact E|]. apply Forall_forall. intros t0 Hin.
      rewrite Forall_forall in Q. split; auto. }
    destruct (@poll_waiting W polls N T others TP Oq n self w W0')
      as [Wt Pn]; [lia|].
    pose proof (@poll_waiting_unseen W polls N T others TP Oq n self w blk off
                  Ob W0' ltac:(lia) Hc) as Hc'.
    unfold nth_call in He.
    destruct (@DoAvailable_waiting_unseen W polls N T others TP Oq
                (fst (poll n self w)) (snd (poll n self w)) blk off Ob Wt
                ltac:(lia) Hc') as [_ H].
    exact (H e He).
  - intros -> ->.
    set (others := fun _ : Task => False).
    assert (Oq : forall task, others task -> quiet polls task)
      by (intros task []).
    assert (W0' : waiting others T self).
    { split; [exact C|]. split; [exact D|]. exists [], [].
      split; [exact E | constructor]. }
    destruct (@poll_waiting W polls N T others TP Oq N self w W0')
      as [Wt Pn]; [lia|].
    unfold nth_call.
    destruct (@DoAvailable_waiting W polls N T others TP Oq
                (fst (poll N self w)) (snd (poll N self w)) complete Wt)
      as (_ & _ & [_ R]).
    { intros w' Ew. apply Tdone. lia. }
    destruct (DoAvailable_status (fst (poll N self w)) (snd (poll N self w)))
      as [[_ Es]|[Ne _]]; [exact Es|].
    destruct (_task_list (r_list (DoAvailable (fst (poll N self w))
                                              (snd (poll N self w)))))
      as [|t0 rest]; [contradiction|].
    inversion R as [|? ? []].
Qed.

End RetryLaw.

(** Scenario B: [Scenario.exchange] holds the receive, which returns
    [incomplete] twice, and a task depending on it.  Calls 1 and 2 return
    [running], call 3 returns [complete], and the receive has then been
    polled three times. *)
Lemma retry_law_witness :
  TaskList.r_status (TaskList.nth_call 0 Scenario.exchange 0)
    = TaskListStatus.running /\
  TaskList.r_status (TaskList.nth_call 1 Scenario.exchange 0)
    = TaskListStatus.running /\
  TaskList.r_status (TaskList.nth_call 2 Scenario.exchange 0)
    = TaskListStatus.complete /\
  snd (TaskList.poll 3 Scenario.exchange 0) = 3.
Proof.
  destruct (@retry_law nat (fun polls => polls) 2 Scenario.exchange 0 []
              [BaseTask.make (TaskID.Set_ 2) (@Scenario.always_complete nat)
                             (TaskID.Set_ 1)]
              (BaseTask.make (TaskID.Set_ 1) Scenario.receive TaskID.empty))
    as (_ & Hafter & Hbefore & _).
  - repeat constructor.
  - reflexivity.
  - reflexivity.
  - reflexivity.
  - repeat split; intros polls;
      unfold BaseTask.call, Scenario.receive,
             ContainerUtils.ReceiveBoundaryBuffersTask,
             Scenario.arrives_at_third_poll; cbn [BaseTask._func BaseTask.make].
    + now destruct (negb (2 <=? polls)).
    + intros H. apply Nat.leb_gt in H. now rewrite H.
    + intros ->. reflexivity.
  - repeat constructor.
  - split; [apply (Hbefore 0); lia|]. split; [apply (Hbefore 1); lia|].
    split; [reflexivity|]. apply (Hafter 3). lia.
Defined.

(** Scenario B, call by call: the task depending on the receive is invoked
    in the third call only, after the receive has returned [complete] in
    that same scan. *)
Example scenario_B_log :
  map (@TaskList.ev_status nat)
      (TaskList.r_trace (TaskList.nth_call 0 Scenario.exchange 0))
    = [incomplete] /\
  map (@TaskList.ev_status nat)
      (TaskList.r_trace (TaskList.nth_call 1 Scenario.exchange 0))
    = [incomplete] /\
  map (fun e => (TaskID.has (BaseTask.GetID (TaskList.ev_task e)) 2,
                 TaskList.ev_status e))
      (TaskList.r_trace (TaskList.nth_call 2 Scenario.exchange 0))
    = [(false, complete); (true, complete)] /\
  TaskList.r_trace (TaskList.nth_call 3 Scenario.exchange 0) = [].
Proof. repeat split. Qed.

(** A list that has run and is then reset replays [Scenario.caller] as a
    fresh list does. *)
Example reset_replays_caller :
  TaskList.d_ids
    (TaskList.execute
       (TaskList.start
          (TaskList.Reset
             (TaskList.r_list (TaskList.DoAvailable Scenario.three tt))) tt)
       Scenario.caller)
  = [TaskID.Set_ 1].
Proof. reflexivity. Qed.

(** * Further properties of the scheduler *)

Section MoreScheduler.
Variable W : Type.
Import TaskList Sched Progress.
Local Abbreviation Task := (BaseTask.t W).
Local Abbreviation Event := (TaskList.Event W).
Local Abbreviation dep := (@BaseTask.GetDependency W).
Local Abbreviation id := (@BaseTask.GetID W).
Local Abbreviation unflagged :=
  (fun task : Task => negb (BaseTask.IsComplete task)).

Lemma filter_unflagged_clean (tasks : list Task) :
  Forall (fun task => BaseTask.IsComplete task = false) tasks ->
  filter unflagged tasks = tasks.
Proof.
  induction 1 as [|task rest Ht F IH]; [reflexivity|].
  cbn [filter]. rewrite Ht, IH. reflexivity.
Qed.

Lemma scan_stalled (tasks : list Task) (c : TaskID.t) (w : W) :
  (forall task, In task tasks -> TaskID.CheckDependencies c (dep task) = false) ->
  scan tasks c w = MkLoop tasks c w [].
Proof.
  induction tasks as [|task rest IH]; intros H; [reflexivity|].
  rewrite scan_cons. cbv zeta.
  destruct (visit_cases task c w) as [[_ E]|[(D & _)|(D & _)]].
  - rewrite E. cbn [l_tasks l_completed l_world l_trace app].
    rewrite IH by (intros t0 H0; apply H; now right). reflexivity.
  - rewrite (H task (in_eq _ _)) in D. discriminate.
  - rewrite (H task (in_eq _ _)) in D. discriminate.
Qed.

Lemma DoAvailable_stalled_once (self : t W) (w : W) :
  clean self -> stalled self ->
  DoAvailable self w =
    MkResult self w (if IsComplete self then TaskListStatus.complete
                     else TaskListStatus.running) [].
Proof.
  intros C S. unfold DoAvailable.
  rewrite (@scan_stalled (_task_list self) (_tasks_completed self) w S).
  cbn [l_tasks l_completed l_world l_trace]. unfold ClearComplete.
  cbn [_task_list _tasks_added _dependencies _tasks_completed].
  rewrite (filter_unflagged_clean C). unfold IsComplete. cbn [_task_list].
  now destruct self.
Qed.

(** X1: a list none of whose pending tasks has its dependency satisfied is a
    fixed point of [DoAvailable]: a call invokes nothing and leaves the
    list and the state as they are, and so does every later call; with
    tasks pending each of them returns [running]. *)
Theorem DoAvailable_stalled_forever (self : t W) (w : W) :
  clean self -> stalled self ->
  forall n,
    poll n self w = (self, w) /\
    nth_call n self w =
      MkResult self w (if IsComplete self then TaskListStatus.complete
                       else TaskListStatus.running) [].
Proof.
  intros C S n.
  assert (P : poll n self w = (self, w)).
  { induction n as [|n IH]; [reflexivity|].
    rewrite poll_S, (@DoAvailable_stalled_once self w C S). exact IH. }
  split; [exact P|]. unfold nth_call. rewrite P. cbn [fst snd].
  now apply DoAvailable_stalled_once.
Qed.

Lemma scan_forward (tasks : list Task) (c : TaskID.t) (w : W) :
  forward c tasks ->
  (forall task, In task tasks ->
                forall w', fst (BaseTask.call task w') = complete) ->
  l_tasks (scan tasks c w) = map (@BaseTask.SetComplete W) tasks /\
  l_completed (scan tasks c w) = all_marked c tasks /\
  map (@ev_task W) (l_trace (scan tasks c w)) = tasks /\
  Forall (fun e => ev_status e = complete) (l_trace (scan tasks c w)).
Proof.
  revert c w. induction tasks as [|task rest IH]; intros c w F H.
  - cbn. repeat split. constructor.
  - destruct F as [D F]. rewrite scan_cons. cbv zeta.
    rewrite (@visit_complete W task c w D (H task (in_eq _ _) w)).
    cbn [l_tasks l_completed l_world l_trace app map ev_task].
    destruct (IH (TaskID.SetFinished c (BaseTask.GetID task))
                 (snd (BaseTask.call task w)) F) as (H1 & H2 & H3 & H4).
    { intros t0 H0. apply H. now right. }
    rewrite H1, H2, H3. repeat split. constructor; [reflexivity | exact H4].
Qed.

(** X2: when the dependency of every pending task is satisfied by the
    completed-set together with the identities of the tasks before it in the
    list, and every body returns [complete], one call of [DoAvailable]
    invokes every task once, in list order, retires them all, marks all their
    identities and returns [complete]. *)
Theorem DoAvailable_drains_forward_list (self : t W) (w : W) :
  forward (_tasks_completed self) (_task_list self) ->
  (forall task, In task (_task_list self) ->
                forall w', fst (BaseTask.call task w') = complete) ->
  map (@ev_task W) (r_trace (DoAvailable self w)) = _task_list self /\
  Forall (fun e => ev_status e = complete) (r_trace (DoAvailable self w)) /\
  _task_list (r_list (DoAvailable self w)) = [] /\
  _tasks_completed (r_list (DoAvailable self w))
    = all_marked (_tasks_completed self) (_task_list self) /\
  r_status (DoAvailable self w) = TaskListStatus.complete.
Proof.
  intros F H.
  destruct (scan_forward (_task_list self) (_tasks_completed self) w F H)
    as (H1 & H2 & H3 & H4).
  assert (E : _task_list (r_list (DoAvailable self w)) = []).
  { rewrite DoAvailable_pending, H1. clear.
    induction (_task_list self) as [|task rest IH]; [reflexivity | exact IH]. }
  rewrite DoAvailable_trace. repeat split; try assumption.
  destruct (DoAvailable_status self w) as [[_ Es]|[Ne _]];
    [exact Es | contradiction].
Qed.

Lemma Retire_counts (before after : list Task) (log : list Event) :
  Retire before log after ->
  length after + completions log = length before /\
  length log <= length before.
Proof.
  unfold completions.
  induction 1 as [|t0 b l a R [IH1 IH2]|t0 s b l a R [IH1 IH2]
                  |t0 s b l a R [IH1 IH2]];
    cbn [length filter ev_status]; lia.
Qed.

(** X3: a call of [DoAvailable] on a list without flagged tasks invokes each
    pending task at most once, and the number of pending tasks drops by
    exactly the number of invocations that returned [complete]; over any
    number of calls the number of pending tasks never grows. *)
Theorem DoAvailable_Size (self : t W) (w : W) :
  clean self ->
  Size (r_list (DoAvailable self w)) + completions (r_trace (DoAvailable self w))
    = Size self /\
  length (r_trace (DoAvailable self w)) <= Size self /\
  forall n, Size (fst (poll n self w)) <= Size self.
Proof.
  intros C. destruct (Retire_counts (DoAvailable_Retire w C)) as [H1 H2].
  unfold Size. split; [exact H1|]. split; [exact H2|].
  intros n. revert self w C H1 H2. induction n as [|n IH]; intros self w C _ _.
  - cbn [poll fst]. lia.
  - rewrite poll_S.
    destruct (Retire_counts (DoAvailable_Retire w C)) as [H1 H2].
    pose proof (clean_DoAvailable self w) as C'.
    destruct (Retire_counts
                (DoAvailable_Retire (r_world (DoAvailable self w)) C'))
      as [H1' H2'].
    specialize (IH _ (r_world (DoAvailable self w)) C' H1' H2'). lia.
Qed.

Lemma scan_order (tasks : list Task) (c : TaskID.t) (w : W)
      (log1 rest : list Event) (e : Event) :
  l_trace (scan tasks c w) = log1 ++ e :: rest ->
  exists l1 l2 c' w',
    tasks = l1 ++ ev_task e :: l2 /\ rest = l_trace (scan l2 c' w').
Proof.
  revert c w log1. induction tasks as [|task ts IH]; intros c w log1.
  - cbn [scan l_trace]. intros H. now destruct log1.
  - rewrite scan_cons. cbv zeta. cbn [l_trace].
    destruct (visit_cases task c w) as [[_ E]|[(_ & _ & E)|(_ & _ & E)]];
      rewrite E; cbn [l_trace l_completed l_world app]; intros H.
    + destruct (IH _ _ _ H) as (l1 & l2 & c' & w' & E1 & E2).
      exists (task :: l1), l2, c', w'. rewrite E1. now split.
    + destruct log1 as [|e0 log1]; cbn [app] in H; injection H as <- H.
      * exists [], ts. eexists. eexists. split; [reflexivity | symmetry; exact H].
      * destruct (IH _ _ _ H) as (l1 & l2 & c' & w' & E1 & E2).
        exists (task :: l1), l2, c', w'. rewrite E1. now split.
    + destruct log1 as [|e0 log1]; cbn [app] in H; injection H as <- H.
      * exists [], ts. eexists. eexists. split; [reflexivity | symmetry; exact H].
      * destruct (IH _ _ _ H) as (l1 & l2 & c' & w' & E1 & E2).
        exists (task :: l1), l2, c', w'. rewrite E1. now split.
Qed.

(** X4: within a call of [DoAvailable] tasks are invoked in the order of the
    list: of two invocations of the log, the earlier is of a task that
    stands before the task of the later in the pending list.  And every
    pending task whose dependency is satisfied when the call starts is
    invoked in that call. *)
Theorem DoAvailable_invokes_in_list_order (self : t W) (w : W) :
  (forall log1 log2 log3 e1 e2,
      r_trace (DoAvailable self w) = log1 ++ e1 :: log2 ++ e2 :: log3 ->
      exists l1 l2 l3,
        _task_list self = l1 ++ ev_task e1 :: l2 ++ ev_task e2 :: l3) /\
  (forall task, In task (_task_list self) ->
      TaskID.CheckDependencies (_tasks_completed self) (dep task) = true ->
      exists e, In e (r_trace (DoAvailable self w)) /\ ev_task e = task).
Proof.
  split.
  - intros log1 log2 log3 e1 e2 E. rewrite DoAvailable_trace in E.
    apply scan_order in E. destruct E as (l1 & l2 & c' & w' & E1 & E2).
    symmetry in E2. apply scan_order in E2.
    destruct E2 as (l2a & l3 & _ & _ & E3 & _).
    exists l1, l2a, l3. now rewrite E1, E3.
  - intros task Hin D. rewrite DoAvailable_trace. now apply scan_invokes.
Qed.

Lemma poll_completed_subset (n : nat) (self : t W) (w : W) :
  TaskID.subset (_tasks_completed self) (_tasks_completed (fst (poll n self w))).
Proof.
  revert self w. induction n as [|n IH]; intros self w.
  - apply TaskIDFacts.subset_refl.
  - rewrite poll_S. eapply TaskIDFacts.subset_trans; [|apply IH].
    rewrite DoAvailable_completed. apply subset_completed_after.
Qed.

(** X5: the completed-set only grows under [DoAvailable]: after any number of
    calls it holds every identity it held before, and a dependency that was
    satisfied is still satisfied. *)
Theorem completed_set_only_grows (self : t W) (w : W) (n : nat) :
  (forall k, TaskID.has (_tasks_completed self) k = true ->
             TaskID.has (_tasks_completed (fst (poll n self w))) k = true) /\
  (forall d, TaskID.CheckDependencies (_tasks_completed self) d = true ->
             TaskID.CheckDependencies
               (_tasks_completed (fst (poll n self w))) d = true).
Proof.
  pose proof (poll_completed_subset n self w) as S. split.
  - intros k. unfold TaskID.has. apply S.
  - intros d. now apply TaskIDFacts.CheckDependencies_mono.
Qed.

Lemma IsReady_loop_true (heap : Heap W) (deps : list Ptr) :
  IsReady_loop heap deps = Some true <-> barriers_drained heap deps.
Proof.
  unfold barriers_drained. induction deps as [|l deps IH]; cbn [IsReady_loop].
  - split; [intros _ l [] | reflexivity].
  - destruct (heap l) as [lst|] eqn:El.
    + unfold IsComplete. destruct (_task_list lst) as [|t0 ts] eqn:Et;
        cbn [negb].
      * rewrite IH. split.
        -- intros H l' [<-|Hin]; [exists lst; now split | now apply H].
        -- intros H l' Hin. apply H. now right.
      * split; [discriminate|]. intros H.
        destruct (H l (in_eq _ _)) as (lst' & E1 & E2).
        rewrite El in E1. injection E1 as <-. rewrite Et in E2. discriminate.
    + split; [discriminate|]. intros H.
      destruct (H l (in_eq _ _)) as (lst' & E1 & _). rewrite El in E1.
      discriminate.
Qed.

Lemma IsReady_loop_false (heap : Heap W) (deps : list Ptr) :
  IsReady_loop heap deps = Some false <->
  exists before l after lst,
    deps = before ++ l :: after /\ barriers_drained heap before /\
    heap l = Some lst /\ _task_list lst <> [].
Proof.
  induction deps as [|l deps IH]; cbn [IsReady_loop].
  - split; [discriminate|]. intros (before & l & after & lst & E & _).
    now destruct before.
  - destruct (heap l) as [lst|] eqn:El.
    + unfold IsComplete. destruct (_task_list lst) as [|t0 ts] eqn:Et;
        cbn [negb].
      * rewrite IH. split.
        -- intros (before & l' & after & lst' & E & B & H1 & H2).
           exists (l :: before), l', after, lst'. rewrite E.
           repeat split; try assumption.
           intros l0 [<-|Hin]; [exists lst; now split | now apply B].
        -- intros (before & l' & after & lst' & E & B & H1 & H2).
           destruct before as [|l0 before]; cbn [app] in E; injection E as <- E.
           ++ rewrite El in H1. injection H1 as <-. now rewrite Et in H2.
           ++ exists before, l', after, lst'. repeat split; try assumption.
              intros l1 Hin. apply B. now right.
      * split; [intros _ | reflexivity].
        exists [], l, deps, lst. repeat split.
        -- intros l0 [].
        -- exact El.
        -- rewrite Et. discriminate.
    + split; [discriminate|].
      intros (before & l' & after & lst' & E & B & H1 & H2).
      destruct before as [|l0 before]; cbn [app] in E; injection E as <- E.
      * rewrite El in H1. discriminate.
      * destruct (B l (in_eq _ _)) as (lst0 & E0 & _). rewrite El in E0.
        discriminate.
Qed.

(** X6: [IsReady] returns true exactly when every registered barrier list is
    live and has no pending task, and false exactly when, going through the
    registered lists in order, it meets one with pending tasks after lists
    that are all drained; what is registered behind that one is not
    looked at. *)
Theorem IsReady_iff (heap : Heap W) (self : t W) :
  (IsReady heap self = Some true <->
   barriers_drained heap (_dependencies self)) /\
  (IsReady heap self = Some false <->
   exists before l after lst,
     _dependencies self = before ++ l :: after /\
     barriers_drained heap before /\
     heap l = Some lst /\ _task_list lst <> []).
Proof. split; [apply IsReady_loop_true | apply IsReady_loop_false]. Qed.

End MoreScheduler.

(** * Properties of [std::map] *)

Module StdMapFacts.
Import StdMap.
Local Abbreviation lt := OrderedTypeEx.String_as_OT.lt.

Lemma compare_Eq (a b : String.string) : String.compare a b = Eq <-> a = b.
Proof. apply OrderedTypeEx.String_as_OT.cmp_eq. Qed.

Lemma compare_Lt (a b : String.string) : String.compare a b = Lt <-> lt a b.
Proof. apply OrderedTypeEx.String_as_OT.cmp_lt. Qed.

Lemma compare_Gt (a b : String.string) : String.compare a b = Gt -> lt b a.
Proof. apply OrderedTypeEx.String_as_OT.compare_helper_gt. Qed.

Lemma lt_irrefl (a : String.string) : ~ lt a a.
Proof.
  intros H. apply OrderedTypeEx.String_as_OT.lt_not_eq in H.
  apply H. reflexivity.
Qed.

Lemma lt_trans (a b c : String.string) : lt a b -> lt b c -> lt a c.
Proof. apply OrderedTypeEx.String_as_OT.lt_trans. Qed.

Section Facts.
Variable V : Type.

Lemma find_assign_eq (k : String.string) (v : V) (m : t V) :
  find k (assign k v m) = Some v.
Proof.
  induction m as [|[k' v'] m IH]; cbn [assign find].
  - now rewrite String.eqb_refl.
  - destruct (String.compare k k') eqn:E; cbn [find].
    + now rewrite String.eqb_refl.
    + now rewrite String.eqb_refl.
    + destruct (String.eqb_spec k k') as [->|_]; [|exact IH].
      apply compare_Gt in E. now apply lt_irrefl in E.
Qed.

Lemma find_assign_neq (k j : String.string) (v : V) (m : t V) :
  j <> k -> find j (assign k v m) = find j m.
Proof.
  intros N. apply String.eqb_neq in N.
  induction m as [|[k' v'] m IH]; cbn [assign find].
  - now rewrite N.
  - destruct (String.compare k k') eqn:E; cbn [find].
    + apply compare_Eq in E. subst k'. now rewrite N.
    + now rewrite N.
    + now rewrite IH.
Qed.

Lemma keys_assign_In (k j : String.string) (v : V) (m : t V) :
  In j (keys (assign k v m)) <-> j = k \/ In j (keys m).
Proof.
  unfold keys. induction m as [|[k' v'] m IH]; cbn [assign map fst In].
  - intuition congruence.
  - destruct (String.compare k k') eqn:E; cbn [map fst In].
    + apply compare_Eq in E. subst k'. intuition congruence.
    + intuition congruence.
    + rewrite IH. intuition congruence.
Qed.

Lemma find_None_iff (k : String.string) (m : t V) :
  find k m = None <-> ~ In k (keys m).
Proof.
  unfold keys. induction m as [|[k' v'] m IH]; cbn [find map fst In].
  - intuition.
  - destruct (String.eqb_spec k k') as [->|N].
    + split; [discriminate | intros H; exfalso; apply H; now left].
    + rewrite IH. intuition congruence.
Qed.

Lemma find_Some_In (k : String.string) (v : V) (m : t V) :
  find k m = Some v -> In (k, v) m.
Proof.
  induction m as [|[k' v'] m IH]; cbn [find In]; [discriminate|].
  destruct (String.eqb_spec k k') as [->|N].
  - intros [= ->]. now left.
  - intros H. right. now apply IH.
Qed.

Lemma sorted_empty : sorted (empty V).
Proof. constructor. Qed.

Lemma sorted_assign (k : String.string) (v : V) (m : t V) :
  sorted m -> sorted (assign k v m).
Proof.
  unfold sorted. induction m as [|[k' v'] m IH]; intros S.
  - cbn. constructor; constructor.
  - cbn [keys map fst] in S. apply Sorted.StronglySorted_inv in S.
    destruct S as [S F]. cbn [assign].
    destruct (String.compare k k') eqn:E.
    + apply compare_Eq in E. subst k'. cbn [keys map fst].
      now constructor.
    + apply compare_Lt in E. cbn [keys map fst].
      constructor; [now constructor|]. constructor; [exact E|].
      rewrite Forall_forall in *. intros x Hx. eapply lt_trans; eauto.
    + apply compare_Gt in E. cbn [keys map fst].
      constructor; [now apply IH|]. apply Forall_forall. intros x Hx.
      apply keys_assign_In in Hx. destruct Hx as [->|Hx]; [exact E|].
      rewrite Forall_forall in F. now apply F.
Qed.

(** In a sorted map an entry is found under its key. *)
Lemma In_find_sorted (k : String.string) (v : V) (m : t V) :
  sorted m -> In (k, v) m -> find k m = Some v.
Proof.
  unfold sorted. induction m as [|[k' v'] m IH]; intros S Hin; [contradiction|].
  cbn [keys map fst] in S. apply Sorted.StronglySorted_inv in S.
  destruct S as [S F]. cbn [find]. destruct Hin as [[= -> ->]|Hin].
  - now rewrite String.eqb_refl.
  - destruct (String.eqb_spec k k') as [->|N]; [|now apply IH].
    exfalso. rewrite Forall_forall in F.
    apply (lt_irrefl (a := k')), F. unfold keys.
    change k' with (fst (k', v)). now apply in_map.
Qed.

End Facts.

(** Two strictly increasing lists with the same members are equal. *)
Lemma sorted_ext (l1 l2 : list String.string) :
  Sorted.StronglySorted lt l1 -> Sorted.StronglySorted lt l2 ->
  (forall x, In x l1 <-> In x l2) -> l1 = l2.
Proof.
  intros S1. revert l2. induction S1 as [|a l1 S1 IH F1]; intros l2 S2 H.
  - destruct l2 as [|b l2]; [reflexivity|].
    exfalso. apply (proj2 (H b)). now left.
  - destruct S2 as [|b l2 S2 F2].
    + exfalso. apply (proj1 (H a)). now left.
    + rewrite Forall_forall in F1, F2.
      assert (E : a = b).
      { destruct (proj1 (H a) (in_eq _ _)) as [->|Ha]; [reflexivity|].
        destruct (proj2 (H b) (in_eq _ _)) as [->|Hb]; [reflexivity|].
        exfalso. apply (lt_irrefl (a := a)).
        eapply lt_trans; [apply F1, Hb | apply F2, Ha]. }
      subst b. f_equal. apply IH; [exact S2|]. intros x. split; intros Hx.
      * destruct (proj1 (H x) (in_cons _ _ _ Hx)) as [->|Hx']; [|exact Hx'].
        exfalso. exact (lt_irrefl (F1 _ Hx)).
      * destruct (proj2 (H x) (in_cons _ _ _ Hx)) as [->|Hx']; [|exact Hx'].
        exfalso. exact (lt_irrefl (F2 _ Hx)).
Qed.

End StdMapFacts.

(** * Properties of [Container] *)

Section ContainerFacts.
Variables Cell Face Sparse : Type.
Variable cell_label : Cell -> String.string.
Variable face_label : Face -> String.string.
Variable sparse_label : Sparse -> String.string.
Import Container.
Local Abbreviation Cont := (Container.t Cell Face Sparse).
Local Abbreviation Add := (Container.Add cell_label).
Local Abbreviation build := (Container.build cell_label face_label sparse_label).
Local Abbreviation Index := (Container.Index (Face := Face) (Sparse := Sparse) cell_label).
Local Abbreviation first_labelled := (Container.first_labelled cell_label).
Local Abbreviation not_found :=
  (fun label : String.string =>
     String.append nl
       (String.append label
          (String.append " array not found in Get()"%string nl))).

(** X9: [Get] of a label right after the [Add] of a variable with that label
    returns this variable; the [Add] changes the result of no other [Get],
    [GetFace] or [GetSparseVariable], and the size grows by one. *)
Theorem Add_then_Get (var : Cell) (c : Cont) :
  Get (cell_label var) (Add var c) = Returns var /\
  (forall label, label <> cell_label var ->
                 Get label (Add var c) = Get label c) /\
  (forall label, GetFace label (Add var c) = GetFace label c) /\
  (forall label, GetSparseVariable label (Add var c)
                 = GetSparseVariable label c) /\
  Size (Add var c) = (Size c + 1)%Z.
Proof.
  unfold Get, GetFace, GetSparseVariable, Size, Container.Add.
  cbn [varMap_ faceMap_ sparseMap_ varVector_].
  rewrite StdMapFacts.find_assign_eq. repeat split.
  - intros label N. now rewrite StdMapFacts.find_assign_neq.
  - rewrite length_app. cbn [length]. lia.
Qed.

Lemma build_snoc (items : list (Item Cell Face Sparse)) (x : Item Cell Face Sparse)
      (c : Cont) :
  build (items ++ [x]) c =
  Add_item cell_label face_label sparse_label (build items c) x.
Proof. unfold Container.build. now rewrite fold_left_app. Qed.

Lemma cells_snoc (items : list (Item Cell Face Sparse)) (x : Item Cell Face Sparse) :
  cells (items ++ [x]) =
  cells items ++ match x with ACell _ _ var => [var] | _ => [] end.
Proof. unfold cells. rewrite flat_map_app. cbn. now rewrite app_nil_r. Qed.

Lemma build_varVector (items : list (Item Cell Face Sparse)) (c : Cont) :
  varVector_ (build items c) = varVector_ c ++ cells items.
Proof.
  induction items as [|x items IH] using rev_ind.
  - cbn. now rewrite app_nil_r.
  - rewrite build_snoc, cells_snoc. destruct x as [var|var|var];
      cbn [Add_item Container.Add Add_face Add_sparse varVector_];
      rewrite IH; now rewrite ?app_nil_r, ?app_assoc.
Qed.

(** The cell map after a sequence of [Add] calls: under each label the
    variable added last; what was there before under the other labels. *)
Lemma build_find (items : list (Item Cell Face Sparse)) (c : Cont)
      (label : String.string) :
  StdMap.find label (varMap_ (build items c)) =
  match first_labelled label (rev (cells items)) with
  | Some var => Some var
  | None => StdMap.find label (varMap_ c)
  end.
Proof.
  induction items as [|x items IH] using rev_ind; [reflexivity|].
  rewrite build_snoc, cells_snoc. destruct x as [var|var|var];
    cbn [Add_item Container.Add Add_face Add_sparse varMap_];
    rewrite ?app_nil_r; try exact IH.
  rewrite rev_app_distr. cbn [rev app]. unfold Container.first_labelled.
  cbn [List.find]. destruct (String.eqb_spec (cell_label var) label) as [<-|N].
  - apply StdMapFacts.find_assign_eq.
  - rewrite StdMapFacts.find_assign_neq by congruence. exact IH.
Qed.

Lemma Get_after_Adds_aux (items : list (Item Cell Face Sparse))
      (label : String.string) :
  (Get label (build items (init Cell Face Sparse)) =
   match first_labelled label (rev (cells items)) with
   | Some var => Returns var
   | None => invalid_argument (not_found label)
   end) /\
  (Get label (build items (init Cell Face Sparse))
     = invalid_argument (not_found label) <->
   forall var, In var (cells items) -> cell_label var <> label).
Proof.
  assert (E : Get label (build items (init Cell Face Sparse)) =
              match first_labelled label (rev (cells items)) with
              | Some var => Returns var
              | None => invalid_argument (not_found label)
              end).
  { unfold Get. rewrite build_find. cbn [init varMap_ StdMap.find].
    now destruct (first_labelled label (rev (cells items))). }
  split; [exact E|]. rewrite E. unfold Container.first_labelled.
  destruct (List.find _ (rev (cells items))) as [var|] eqn:F.
  - split; [discriminate|]. intros H. apply find_some in F.
    destruct F as [Hin Hl]. apply String.eqb_eq in Hl.
    apply in_rev in Hin. now apply H in Hin.
  - split; [|reflexivity]. intros _ var Hin Hl.
    apply in_rev in Hin. pose proof (find_none _ _ F var Hin) as Hf.
    cbv beta in Hf. rewrite Hl, String.eqb_refl in Hf. discriminate.
Qed.

(** X10: in a container built by [Add] calls from the default-constructed one,
    [Get] returns the variable added last under the label, and throws
    [std::invalid_argument] exactly when no variable was added under it. *)
Theorem Get_after_Adds (items : list (Item Cell Face Sparse))
        (label : String.string) :
  (Get label (build items (init Cell Face Sparse)) =
   match first_labelled label (rev (cells items)) with
   | Some var => Returns var
   | None => invalid_argument (not_found label)
   end) /\
  (Get label (build items (init Cell Face Sparse))
     = invalid_argument (not_found label) <->
   forall var, In var (cells items) -> cell_label var <> label).
Proof. apply Get_after_Adds_aux. Qed.

Lemma Index_from_spec (label : String.string) (vars : list Cell) (i : Z) :
  match first_labelled label vars with
  | None =>
      Index_from cell_label i label vars = (-1)%Z /\
      Forall (fun var => cell_label var <> label) vars
  | Some var =>
      exists before after,
        vars = before ++ var :: after /\
        Forall (fun var' => cell_label var' <> label) before /\
        cell_label var = label /\
        Index_from cell_label i label vars = (i + Z.of_nat (length before))%Z
  end.
Proof.
  revert i. unfold Container.first_labelled.
  induction vars as [|var vars IH]; intros i; cbn [List.find Index_from].
  - split; [reflexivity | constructor].
  - destruct (String.eqb_spec (cell_label var) label) as [E|N].
    + exists [], vars. apply StdMapFacts.compare_Eq in E as E'. rewrite E'.
      repeat split; [constructor | exact E | cbn; lia].
    + assert (C : String.compare (cell_label var) label <> Eq)
        by (intros C; now apply StdMapFacts.compare_Eq in C).
      specialize (IH (i + 1)%Z).
      destruct (List.find _ vars) as [found|].
      * destruct IH as (before & after & Ev & Fb & El & Ei).
        exists (var :: before), after. rewrite Ev. repeat split.
        -- now constructor.
        -- exact El.
        -- rewrite <- Ev.
           destruct (String.compare (cell_label var) label);
             [contradiction | |]; rewrite Ei; cbn [length]; lia.
      * destruct IH as [Ei Fa]. split; [|now constructor].
        destruct (String.compare (cell_label var) label);
          [contradiction | exact Ei | exact Ei].
Qed.

Lemma nth_error_middle (A : Type) (before after : list A) (x : A) :
  nth_error (before ++ x :: after) (length before) = Some x.
Proof. induction before; [reflexivity | assumption]. Qed.

(** X11: [Index] returns -1 exactly when no variable of the vector has the
    label; otherwise it returns a position within the vector, that of the
    first variable with the label: [Get(Index(label))] is that variable, and
    no variable before it has the label. *)
Theorem Index_first_match (label : String.string) (c : Cont) :
  (Size c <= Z.of_N INT_MAX)%Z ->
  (Index label c = (-1)%Z <->
   Forall (fun var => cell_label var <> label) (varVector_ c)) /\
  (Index label c <> (-1)%Z -> (0 <= Index label c < Size c)%Z) /\
  (forall var, Get_index (Index label c) c = Some var <->
               first_labelled label (varVector_ c) = Some var) /\
  (forall j var, (0 <= j < Index label c)%Z ->
                 Get_index j c = Some var -> cell_label var <> label).
Proof.
  intros _. unfold Container.Index, Get_index, Size.
  pose proof (Index_from_spec label (varVector_ c) 0) as H.
  destruct (first_labelled label (varVector_ c)) as [found|].
  - destruct H as (before & after & Ev & Fb & El & Ei). rewrite Ei, Ev.
    assert (P : (0 + Z.of_nat (length before) <? 0)%Z = false)
      by (apply Z.ltb_ge; lia).
    rewrite P. replace (Z.to_nat (0 + Z.of_nat (length before)))
      with (length before) by lia.
    rewrite nth_error_middle. repeat split.
    + lia.
    + intros F. apply Forall_app in F. destruct F as [_ F].
      inversion F; subst. contradiction.
    + lia.
    + rewrite length_app. cbn [length]. lia.
    + congruence.
    + congruence.
    + intros j var Hj. destruct (j <? 0)%Z eqn:Ej; [discriminate|].
      intros Hn. rewrite nth_error_app1 in Hn by lia.
      apply nth_error_In in Hn. rewrite Forall_forall in Fb. now apply Fb.
  - destruct H as [Ei Fa]. rewrite Ei. cbn.
    repeat split; try congruence; try lia; try discriminate.
Qed.

Lemma find_app (A : Type) (p : A -> bool) (l1 l2 : list A) :
  List.find p (l1 ++ l2) =
  match List.find p l1 with Some x => Some x | None => List.find p l2 end.
Proof.
  induction l1 as [|a l1 IH]; [reflexivity|]. cbn [app List.find].
  now destruct (p a).
Qed.

Lemma find_all_false (A : Type) (p : A -> bool) (l : list A) :
  (forall x, In x l -> p x = false) -> List.find p l = None.
Proof.
  induction l as [|a l IH]; intros H; [reflexivity|]. cbn [List.find].
  rewrite (H a (in_eq _ _)). apply IH. intros x Hx. apply H. now right.
Qed.

(** With distinct labels the first and the last variable under a label are
    the same. *)
Lemma first_labelled_rev (label : String.string) (vars : list Cell) :
  NoDup (map cell_label vars) ->
  first_labelled label (rev vars) = first_labelled label vars.
Proof.
  unfold Container.first_labelled.
  induction vars as [|var vars IH]; intros N; [reflexivity|].
  cbn [map] in N. inversion N as [|? ? Hnin N']; subst.
  cbn [rev List.find]. rewrite find_app, (IH N'). cbn [List.find].
  destruct (String.eqb_spec (cell_label var) label) as [E|_].
  - rewrite find_all_false; [reflexivity|].
    intros x Hx. apply String.eqb_neq. intros Ex. apply Hnin.
    rewrite E, <- Ex. now apply in_map.
  - now destruct (List.find _ vars).
Qed.

(** X12: in a container built by [Add] calls, [Get] by label returns normally
    exactly when [Index] finds the label; [Get(Index(label))] is the variable
    added first under the label and [Get(label)] the one added last; when
    the labels of the variables added are distinct, the two agree. *)
Theorem Get_agrees_with_Index (items : list (Item Cell Face Sparse))
        (label : String.string) :
  ((exists var, Get label (build items (init Cell Face Sparse)) = Returns var)
   <-> Index label (build items (init Cell Face Sparse)) <> (-1)%Z) /\
  (forall var,
     Get_index (Index label (build items (init Cell Face Sparse)))
               (build items (init Cell Face Sparse)) = Some var <->
     first_labelled label (cells items) = Some var) /\
  (forall var,
     Get label (build items (init Cell Face Sparse)) = Returns var <->
     first_labelled label (rev (cells items)) = Some var) /\
  (NoDup (map cell_label (cells items)) ->
   forall var,
     Get label (build items (init Cell Face Sparse)) = Returns var <->
     Get_index (Index label (build items (init Cell Face Sparse)))
               (build items (init Cell Face Sparse)) = Some var).
Proof.
  set (c := build items (init Cell Face Sparse)).
  assert (Ev : varVector_ c = cells items) by apply build_varVector.
  assert (G : forall var, Get label c = Returns var <->
                          first_labelled label (rev (cells items)) = Some var).
  { intros var. unfold c. rewrite (proj1 (Get_after_Adds_aux items label)).
    destruct (first_labelled label (rev (cells items)));
      split; congruence. }
  assert (I : forall var, Get_index (Index label c) c = Some var <->
                          first_labelled label (cells items) = Some var).
  { intros var. unfold Container.Index, Get_index. rewrite Ev.
    pose proof (Index_from_spec label (cells items) 0) as H.
    destruct (first_labelled label (cells items)) as [found|].
    - destruct H as (before & after & Ec & _ & _ & Ei). rewrite Ei, Ec.
      assert (P : (0 + Z.of_nat (length before) <? 0)%Z = false)
        by (apply Z.ltb_ge; lia).
      rewrite P. replace (Z.to_nat (0 + Z.of_nat (length before)))
        with (length before) by lia.
      rewrite nth_error_middle. split; congruence.
    - destruct H as [Ei _]. rewrite Ei. cbn. split; discriminate. }
  split; [|split; [exact I | split; [exact G|]]].
  - unfold Container.Index. rewrite Ev.
    pose proof (Index_from_spec label (cells items) 0) as H.
    assert (R : first_labelled label (rev (cells items)) = None <->
                first_labelled label (cells items) = None).
    { unfold Container.first_labelled. split; intros F;
        apply find_all_false; intros x Hx; apply (find_none _ _ F).
      - apply (proj1 (in_rev _ _)). exact Hx.
      - apply (proj2 (in_rev _ _)). exact Hx. }
    destruct (first_labelled label (cells items)) as [found|] eqn:F.
    + destruct H as (before & after & _ & _ & _ & Ei). rewrite Ei.
      split; [lia|]. intros _.
      destruct (first_labelled label (rev (cells items))) as [last|] eqn:L.
      * exists last. now apply G.
      * discriminate (proj1 R eq_refl).
    + destruct H as [Ei _]. rewrite Ei. split; [|congruence].
      intros [var Hv]. apply G in Hv. rewrite (proj2 R eq_refl) in Hv.
      discriminate.
  - intros N var.
    rewrite G, I, (@first_labelled_rev label (cells items) N). reflexivity.
Qed.

Lemma fold_assign_keys (V : Type) (f : V -> String.string) (vars : list V)
      (m : StdMap.t V) :
  (forall j,
     In j (StdMap.keys
             (fold_left (fun m' var => StdMap.assign (f var) var m') vars m))
     <-> In j (map f vars) \/ In j (StdMap.keys m)) /\
  (StdMap.sorted m ->
   StdMap.sorted
     (fold_left (fun m' var => StdMap.assign (f var) var m') vars m)).
Proof.
  revert m. induction vars as [|var vars IH]; intros m; cbn [fold_left map In].
  - split; [intuition | auto].
  - destruct (IH (StdMap.assign (f var) var m)) as [IH1 IH2]. split.
    + intros j. rewrite IH1, StdMapFacts.keys_assign_In. intuition congruence.
    + intros S. now apply IH2, StdMapFacts.sorted_assign.
Qed.

Lemma build_maps (items : list (Item Cell Face Sparse)) (c : Cont) :
  varMap_ (build items c) =
    fold_left (fun m var => StdMap.assign (cell_label var) var m)
              (cells items) (varMap_ c) /\
  faceMap_ (build items c) =
    fold_left (fun m var => StdMap.assign (face_label var) var m)
              (faces items) (faceMap_ c) /\
  sparseMap_ (build items c) =
    fold_left (fun m var => StdMap.assign (sparse_label var) var m)
              (sparses items) (sparseMap_ c).
Proof.
  revert c. induction items as [|x items IH]; intros c; [now repeat split|].
  cbn [Container.build fold_left]. fold (build items (Add_item cell_label face_label sparse_label c x)).
  destruct (IH (Add_item cell_label face_label sparse_label c x)) as (H1 & H2 & H3).
  rewrite H1, H2, H3. now destruct x.
Qed.

Lemma build_keys (items : list (Item Cell Face Sparse)) :
  (forall j, In j (StdMap.keys (varMap_ (build items (init Cell Face Sparse))))
             <-> In j (map cell_label (cells items))) /\
  (forall j, In j (StdMap.keys (faceMap_ (build items (init Cell Face Sparse))))
             <-> In j (map face_label (faces items))) /\
  (forall j, In j (StdMap.keys (sparseMap_ (build items (init Cell Face Sparse))))
             <-> In j (map sparse_label (sparses items))) /\
  StdMap.sorted (varMap_ (build items (init Cell Face Sparse))) /\
  StdMap.sorted (faceMap_ (build items (init Cell Face Sparse))) /\
  StdMap.sorted (sparseMap_ (build items (init Cell Face Sparse))).
Proof.
  destruct (build_maps items (init Cell Face Sparse)) as (H1 & H2 & H3).
  rewrite H1, H2, H3. cbn [init varMap_ faceMap_ sparseMap_].
  destruct (fold_assign_keys cell_label (cells items) []) as [K1 S1].
  destruct (fold_assign_keys face_label (faces items) []) as [K2 S2].
  destruct (fold_assign_keys sparse_label (sparses items) []) as [K3 S3].
  repeat split; try (intros H; first [apply K1 in H | apply K2 in H | apply K3 in H];
                     destruct H as [H|[]]; exact H);
    try (intros H; first [apply K1 | apply K2 | apply K3]; now left);
    first [apply S1 | apply S2 | apply S3]; constructor.
Qed.

(** X13: [operator==] on containers built by [Add] calls: it returns true when
    the two hold the same labels of each kind, in whatever order and with
    whatever variables they were added; and when it returns true, every
    label of the one is a label of the other, of some kind. *)
Theorem eqb_compares_labels (items1 items2 : list (Item Cell Face Sparse)) :
  ((forall l, In l (map cell_label (cells items1))
              <-> In l (map cell_label (cells items2))) ->
   (forall l, In l (map face_label (faces items1))
              <-> In l (map face_label (faces items2))) ->
   (forall l, In l (map sparse_label (sparses items1))
              <-> In l (map sparse_label (sparses items2))) ->
   Container.eqb (build items1 (init Cell Face Sparse))
                 (build items2 (init Cell Face Sparse)) = true) /\
  (Container.eqb (build items1 (init Cell Face Sparse))
                 (build items2 (init Cell Face Sparse)) = true ->
   forall l,
     In l (map cell_label (cells items1) ++ map face_label (faces items1)
             ++ map sparse_label (sparses items1)) <->
     In l (map cell_label (cells items2) ++ map face_label (faces items2)
             ++ map sparse_label (sparses items2))).
Proof.
  destruct (build_keys items1) as (K1 & K2 & K3 & S1 & S2 & S3).
  destruct (build_keys items2) as (K1' & K2' & K3' & S1' & S2' & S3').
  unfold Container.eqb, all_keys. split.
  - intros H1 H2 H3.
    rewrite (StdMapFacts.sorted_ext S1 S1'), (StdMapFacts.sorted_ext S2 S2'),
            (StdMapFacts.sorted_ext S3 S3').
    + now destruct (list_eq_dec _ _ _).
    + intros x. now rewrite K3, K3'.
    + intros x. now rewrite K2, K2'.
    + intros x. now rewrite K1, K1'.
  - destruct (list_eq_dec _ _ _) as [E|_]; [|discriminate]. intros _ l.
    rewrite !in_app_iff, <- K1, <- K2, <- K3, <- K1', <- K2', <- K3',
            <- !in_app_iff, E. reflexivity.
Qed.

End ContainerFacts.

(** * Properties of the label registry *)

Section RegistryFacts.
Import FieldPropertiesInterface.
Local Abbreviation lt := OrderedTypeEx.String_as_OT.lt.

Lemma first_with_id_spec (id : Z) (m : registry) :
  StdMap.sorted m ->
  match first_with_id id m with
  | None => forall label id', In (label, id') m -> id' <> id
  | Some label =>
      In (label, id) m /\
      forall other, In (other, id) m -> other = label \/ lt label other
  end.
Proof.
  unfold StdMap.sorted. induction m as [|[k v] m IH]; intros S.
  - intros label id' [].
  - cbn [StdMap.keys map fst] in S. apply Sorted.StronglySorted_inv in S.
    destruct S as [S F]. specialize (IH S). cbn [first_with_id].
    destruct (Z.eqb_spec v id) as [->|N].
    + split; [now left|]. intros other [[= ->]|Hin]; [now left|].
      right. rewrite Forall_forall in F. apply F.
      unfold StdMap.keys. change other with (fst (other, id)). now apply in_map.
    + destruct (first_with_id id m) as [label|].
      * destruct IH as [Hin Hmin]. split; [now right|].
        intros other [[= -> ->]|Ho]; [contradiction | now apply Hmin].
      * intros label id' [[= -> ->]|Hin]; [exact N | now apply (IH label)].
Qed.

(** X14: after [InsertID(label, id)], [GetIDFromLabel(label)] returns [id] and
    changes nothing, and the identifiers of the other labels are as before.
    [GetIDFromLabel] of a label that is not registered returns 0 and
    registers the label with identifier 0.  Both keep the map ordered. *)
Theorem InsertID_then_GetIDFromLabel (label : String.string) (id : Z)
        (m : registry) :
  GetIDFromLabel label (InsertID label id m) = (id, InsertID label id m) /\
  (forall other, other <> label ->
     StdMap.find other (InsertID label id m) = StdMap.find other m) /\
  (StdMap.find label m = None ->
   GetIDFromLabel label m = (0%Z, InsertID label 0%Z m) /\
   StdMap.find label (snd (GetIDFromLabel label m)) = Some 0%Z) /\
  (StdMap.sorted m ->
   StdMap.sorted (InsertID label id m) /\
   StdMap.sorted (snd (GetIDFromLabel label m))).
Proof.
  unfold GetIDFromLabel, InsertID. rewrite StdMapFacts.find_assign_eq.
  split; [reflexivity|]. split; [|split].
  - intros other N. now apply StdMapFacts.find_assign_neq.
  - intros E. rewrite E. cbn [snd].
    split; [reflexivity | apply StdMapFacts.find_assign_eq].
  - intros S. split; [now apply StdMapFacts.sorted_assign|].
    destruct (StdMap.find label m); cbn [snd];
      [exact S | now apply StdMapFacts.sorted_assign].
Qed.

(** X15: on an ordered registry, [GetLabelFromID(id)] returns a label registered
    with [id], the least of them in the order of the keys, when there is
    one, and the string UNKNOWN when there is none; so it returns [label]
    when [label] is the only label registered with [id]. *)
Theorem GetLabelFromID_least (id : Z) (m : registry) :
  StdMap.sorted m ->
  ((forall label, StdMap.find label m <> Some id) ->
   GetLabelFromID id m = "UNKNOWN"%string) /\
  (forall label, StdMap.find label m = Some id ->
     StdMap.find (GetLabelFromID id m) m = Some id /\
     (GetLabelFromID id m = label \/ lt (GetLabelFromID id m) label)) /\
  (forall label, StdMap.find label m = Some id ->
     (forall other, StdMap.find other m = Some id -> other = label) ->
     GetLabelFromID id m = label).
Proof.
  intros S. pose proof (first_with_id_spec id S) as H.
  unfold GetLabelFromID.
  assert (P : forall label, StdMap.find label m = Some id ->
     StdMap.find (match first_with_id id m with
                  | Some l => l | None => "UNKNOWN"%string end) m = Some id /\
     ((match first_with_id id m with
       | Some l => l | None => "UNKNOWN"%string end) = label \/
      lt (match first_with_id id m with
          | Some l => l | None => "UNKNOWN"%string end) label)).
  { intros label F. apply StdMapFacts.find_Some_In in F.
    destruct (first_with_id id m) as [found|].
    - destruct H as [Hin Hmin]. split.
      + now apply StdMapFacts.In_find_sorted.
      + destruct (Hmin label F) as [->|L]; [now left | now right].
    - exfalso. exact (H label id F eq_refl). }
  split; [|split].
  - intros Hno. destruct (first_with_id id m) as [found|]; [|reflexivity].
    destruct H as [Hin _]. exfalso. apply (Hno found).
    now apply StdMapFacts.In_find_sorted.
  - exact P.
  - intros label F U. destruct (P label F) as [F' _]. now apply U.
Qed.

End RegistryFacts.

(** * The books of a task list *)

Section Ledger.
Variable W : Type.
Import TaskList Sched Progress.
Local Abbreviation Task := (BaseTask.t W).
Local Abbreviation Event := (TaskList.Event W).
Local Abbreviation id := (@BaseTask.GetID W).

Lemma mint_inj (a b : nat) : 1 <= a -> 1 <= b -> mint a = mint b -> a = b.
Proof.
  intros Ha Hb E. unfold mint in E.
  assert (H : TaskID.eqb (TaskID.Set_ (N.of_nat a)) (TaskID.Set_ (N.of_nat b))
              = true).
  { rewrite E. apply TaskIDFacts.eqb_iff, TaskIDFacts.equiv_refl. }
  apply TaskIDBits.eqb_Set in H; lia.
Qed.

Lemma has_mint (a k : nat) :
  1 <= k -> TaskID.has (mint a) (N.of_nat k) = true <-> a = k.
Proof.
  intros Hk. unfold mint. rewrite TaskIDBits.has_Set by lia. lia.
Qed.

Lemma bit_completed_after_existsb (log : list Event) (c : TaskID.t)
      (blk : nat) (off : N) :
  TaskID.bit (completed_after log c) blk off =
  TaskID.bit c blk off ||
  existsb (fun e => completed_event e && TaskID.bit (id (ev_task e)) blk off)
          log.
Proof.
  revert c. induction log as [|e log IH]; intros c.
  - cbn. now rewrite orb_false_r.
  - cbn [completed_after fold_left existsb].
    fold (completed_after log (mark c e)). rewrite IH.
    unfold mark, completed_event. destruct (ev_status e); cbn [andb].
    + rewrite TaskIDFacts.bit_SetFinished. now rewrite orb_assoc.
    + reflexivity.
Qed.

Lemma has_completed_after (log : list Event) (c : TaskID.t) (k : N) :
  TaskID.has (completed_after log c) k = true <->
  TaskID.has c k = true \/
  exists task, In task (map (@ev_task W) (filter (@completed_event W) log)) /\
               TaskID.has (id task) k = true.
Proof.
  unfold TaskID.has. rewrite bit_completed_after_existsb, orb_true_iff.
  rewrite existsb_exists. split; (intros [H|H]; [now left | right]).
  - destruct H as (e & He & Hb). apply andb_true_iff in Hb.
    destruct Hb as [Hc Hb]. exists (ev_task e). split; [|exact Hb].
    apply in_map, filter_In. now split.
  - destruct H as (task & Hin & Hb). apply in_map_iff in Hin.
    destruct Hin as (e & <- & He). apply filter_In in He.
    destruct He as [He Hc]. exists e. split; [exact He|].
    now rewrite Hc, Hb.
Qed.

(** Which indices stay and which go in a call. *)
Lemma Retire_indices (before after : list Task) (log : list Event) :
  Retire before log after ->
  forall ks, map id before = map mint ks ->
  exists ks' kc,
    map id after = map mint ks' /\
    map id (map (@ev_task W) (filter (@completed_event W) log)) = map mint kc /\
    (forall k, In k ks <-> In k kc \/ In k ks') /\
    (NoDup ks -> NoDup ks' /\ forall k, In k kc -> ~ In k ks').
Proof.
  induction 1 as [|t0 b l a R IH|t0 s b l a R IH|t0 s b l a R IH];
    intros ks E.
  - destruct ks; [|discriminate]. exists [], [].
    split; [reflexivity|]. split; [reflexivity|]. split.
    + intros k. cbn [In]. tauto.
    + intros _. split; [constructor | intros k []].
  - destruct ks as [|k ks]; [discriminate|]. cbn [map] in E.
    injection E as Ek E. destruct (IH ks E) as (ks' & kc & E1 & E2 & Hin & Hnd).
    exists (k :: ks'), kc. cbn [map]. rewrite Ek, E1.
    split; [reflexivity|]. split; [exact E2|]. split.
    + intros k0. cbn [In]. rewrite Hin. tauto.
    + intros N. inversion N as [|? ? Hk N']; subst.
      destruct (Hnd N') as [Nd Dj]. split.
      * constructor; [|exact Nd]. intros Hk'. apply Hk, Hin. now right.
      * intros k0 Hk0 [<-|Hk1]; [apply Hk, Hin; now left | now apply (Dj k0)].
  - destruct ks as [|k ks]; [discriminate|]. cbn [map] in E.
    injection E as Ek E. destruct (IH ks E) as (ks' & kc & E1 & E2 & Hin & Hnd).
    exists (k :: ks'), kc. cbn [map filter completed_event ev_status].
    rewrite Ek, E1. split; [reflexivity|]. split; [exact E2|]. split.
    + intros k0. cbn [In]. rewrite Hin. tauto.
    + intros N. inversion N as [|? ? Hk N']; subst.
      destruct (Hnd N') as [Nd Dj]. split.
      * constructor; [|exact Nd]. intros Hk'. apply Hk, Hin. now right.
      * intros k0 Hk0 [<-|Hk1]; [apply Hk, Hin; now left | now apply (Dj k0)].
  - destruct ks as [|k ks]; [discriminate|]. cbn [map] in E.
    injection E as Ek E. destruct (IH ks E) as (ks' & kc & E1 & E2 & Hin & Hnd).
    exists ks', (k :: kc). cbn [map filter completed_event ev_status ev_task].
    rewrite Ek, E2. split; [exact E1|]. split; [reflexivity|]. split.
    + intros k0. cbn [In]. rewrite Hin. tauto.
    + intros N. inversion N as [|? ? Hk N']; subst.
      destruct (Hnd N') as [Nd Dj]. split; [exact Nd|].
      intros k0 [<-|Hk0]; [|now apply Dj]. intros Hk'. apply Hk, Hin.
      now right.
Qed.

Lemma ledger_fresh (l0 : t W) :
  l0 = init W \/ (exists self, l0 = Reset self) -> ledger [] l0.
Proof.
  intros H.
  assert (E : _task_list l0 = [] /\ _tasks_added l0 = 0%N /\
              forall k, TaskID.has (_tasks_completed l0) k = false).
  { destruct H as [->|[self ->]]; repeat split; intros k; unfold TaskID.has.
    - apply TaskIDFacts.bit_empty.
    - apply TaskIDFacts.bit_clear. }
  destruct E as (E1 & E2 & E3). unfold ledger. rewrite E1, E2.
  split; [constructor|]. split; [reflexivity|]. split; [constructor|].
  split; [constructor|]. intros k Hk. rewrite E3. split; [discriminate|].
  intros [Hle _]. cbn in Hle. lia.
Qed.

Lemma ledger_AddTask (ks : list nat) (self : t W)
      (func : BaseTask.TaskFunc W) (d : TaskID.t) :
  ledger ks self ->
  ledger (ks ++ [S (N.to_nat (_tasks_added self))]) (snd (AddTask self func d)).
Proof.
  intros (C & E & Nd & B & H). unfold ledger, AddTask.
  cbn [snd _task_list _tasks_added _tasks_completed].
  assert (En : N.to_nat (_tasks_added self + 1) = S (N.to_nat (_tasks_added self)))
    by lia.
  rewrite En. rewrite Forall_forall in B.
  split; [|split; [|split; [|split]]].
  - apply Forall_app. split; [exact C | now repeat constructor].
  - rewrite !map_app, E. cbn [map BaseTask.make BaseTask.GetID BaseTask._myid].
    unfold mint. do 3 f_equal. lia.
  - apply NoDup_app; [exact Nd | repeat constructor; intros [] |].
    intros k Hk [<-|[]]. apply B in Hk. lia.
  - apply Forall_forall. intros k Hk. apply in_app_or in Hk.
    destruct Hk as [Hk|[<-|[]]]; [apply B in Hk; lia | lia].
  - intros k Hk. rewrite (H k Hk), in_app_iff. cbn [In]. split.
    + intros [Hle Hn]. split; [lia|]. intros [Hi|[Hi|[]]]; [tauto | lia].
    + intros [Hle Hn]. split; [|tauto].
      destruct (Nat.eq_dec k (S (N.to_nat (_tasks_added self)))) as [->|Ne];
        [exfalso; apply Hn; right; now left | lia].
Qed.

Lemma ledger_DoAvailable (ks : list nat) (self : t W) (w : W) :
  ledger ks self -> exists ks', ledger ks' (r_list (DoAvailable self w)).
Proof.
  intros (C & E & Nd & B & H).
  pose proof (@DoAvailable_Retire W self w C) as R.
  destruct (Retire_indices R ks E) as (ks' & kc & E1 & E2 & Hin & Hnd).
  destruct (Hnd Nd) as [Nd' Dj]. rewrite Forall_forall in B.
  exists ks'. unfold ledger. rewrite DoAvailable_tasks_added.
  split; [apply clean_DoAvailable|]. split; [exact E1|]. split; [exact Nd'|].
  split.
  - apply Forall_forall. intros k Hk. apply B, Hin. now right.
  - intros k Hk. rewrite DoAvailable_completed, has_completed_after, (H k Hk).
    assert (X : (exists task,
                   In task (map (@ev_task W)
                              (filter (@completed_event W)
                                      (r_trace (DoAvailable self w)))) /\
                   TaskID.has (id task) (N.of_nat k) = true) <-> In k kc).
    { split.
      - intros (task & Ht & Hh). apply (in_map id) in Ht. rewrite E2 in Ht.
        apply in_map_iff in Ht. destruct Ht as (a & Ea & Ha).
        rewrite <- Ea in Hh. apply has_mint in Hh; [now subst | exact Hk].
      - intros Hkc. assert (Hm : In (mint k) (map mint kc)) by now apply in_map.
        rewrite <- E2 in Hm. apply in_map_iff in Hm.
        destruct Hm as (task & Et & Ht). exists task. split; [exact Ht|].
        rewrite Et. now apply has_mint. }
    rewrite X. split.
    + intros [[Hle Hn]|Hkc].
      * split; [exact Hle|]. intros Hk'. apply Hn, Hin. now right.
      * split; [|now apply Dj]. apply B, Hin. now left.
    + intros [Hle Hn]. destruct (in_dec Nat.eq_dec k ks) as [Hi|Hi].
      * apply Hin in Hi. destruct Hi as [Hi|Hi]; [now right | contradiction].
      * left. now split.
Qed.

Lemma ledger_execute (l0 : t W) (w : W) (calls : list (Call W)) :
  l0 = init W \/ (exists self, l0 = Reset self) ->
  exists ks, ledger ks (d_list (execute (start l0 w) calls)).
Proof.
  intros H0. induction calls as [|c calls [ks IH]] using rev_ind.
  - exists []. now apply ledger_fresh.
  - rewrite execute_snoc. destruct c as [args|]; cbn [exec].
    + destruct (args (d_ids (execute (start l0 w) calls))) as [func d].
      pose proof (ledger_AddTask func d IH) as L.
      destruct (AddTask (d_list (execute (start l0 w) calls)) func d).
      eexists. exact L.
    + cbn [d_list]. eapply ledger_DoAvailable, IH.
Qed.

(** X7: in a list driven from construction or from [Reset] by [AddTask] and
    [DoAvailable] calls, every pending task carries the identity of an index
    between 1 and the number of [AddTask] calls made, and two pending tasks
    never carry equal identities. *)
Theorem pending_identities_distinct (l0 : t W) (w : W) (calls : list (Call W)) :
  l0 = init W \/ (exists self, l0 = Reset self) ->
  (N.of_nat (added calls) <= INT_MAX)%N ->
  (forall task,
      In task (_task_list (d_list (execute (start l0 w) calls))) ->
      exists k, 1 <= k <= added calls /\ id task = mint k) /\
  (forall l1 l2 l3 t1 t2,
      _task_list (d_list (execute (start l0 w) calls))
        = l1 ++ t1 :: l2 ++ t2 :: l3 ->
      TaskID.eqb (id t1) (id t2) = false).
Proof.
  intros H0 _. destruct (ledger_execute w calls H0) as (ks & _ & E & Nd & B & _).
  assert (H00 : _tasks_added l0 = 0%N)
    by (destruct H0 as [->|[self ->]]; reflexivity).
  destruct (@execute_counts W l0 w calls H00) as [_ Ea]. rewrite Ea in B.
  rewrite Forall_forall in B. split.
  - intros task Hin. apply (in_map id) in Hin. rewrite E in Hin.
    apply in_map_iff in Hin. destruct Hin as (k & Ek & Hk).
    exists k. split; [apply B in Hk; lia | now symmetry].
  - intros l1 l2 l3 t1 t2 El. rewrite El in E. symmetry in E.
    rewrite map_app in E. apply map_eq_app in E.
    destruct E as (ks1 & ks' & -> & _ & E). cbn [map] in E.
    apply map_eq_cons in E. destruct E as (k1 & ks'' & -> & E1 & E).
    rewrite map_app in E. apply map_eq_app in E.
    destruct E as (ks2 & ks''' & -> & _ & E). cbn [map] in E.
    apply map_eq_cons in E. destruct E as (k2 & ks3 & -> & E2 & _).
    rewrite <- E1, <- E2.
    destruct (TaskID.eqb (mint k1) (mint k2)) eqn:Q; [|reflexivity].
    exfalso. unfold mint in Q.
    assert (B1 : 1 <= k1 <= N.to_nat (N.of_nat (added calls)))
      by (apply B, in_or_app; right; now left).
    assert (B2 : 1 <= k2 <= N.to_nat (N.of_nat (added calls))).
    { apply B, in_or_app. right. right. apply in_or_app. right. now left. }
    apply TaskIDBits.eqb_Set in Q; [|lia|lia].
    apply NoDup_remove_2 in Nd. apply Nd, in_or_app. right.
    apply in_or_app. right. left. lia.
Qed.

(** X8: in a list driven from construction or from [Reset] by [AddTask] and
    [DoAvailable] calls, the completed-set holds exactly the identities that
    were handed out and whose task is no longer pending. *)
Theorem completed_set_is_retired (l0 : t W) (w : W) (calls : list (Call W))
        (k : nat) :
  l0 = init W \/ (exists self, l0 = Reset self) ->
  (N.of_nat (added calls) <= INT_MAX)%N ->
  1 <= k ->
  (TaskID.has (_tasks_completed (d_list (execute (start l0 w) calls)))
              (N.of_nat k) = true <->
   k <= added calls /\
   forall task, In task (_task_list (d_list (execute (start l0 w) calls))) ->
                id task <> mint k).
Proof.
  intros H0 _ Hk.
  destruct (ledger_execute w calls H0) as (ks & _ & E & Nd & B & H).
  assert (H00 : _tasks_added l0 = 0%N)
    by (destruct H0 as [->|[self ->]]; reflexivity).
  destruct (@execute_counts W l0 w calls H00) as [_ Ea].
  rewrite Ea in B, H. rewrite (H k Hk). rewrite Forall_forall in B.
  replace (N.to_nat (N.of_nat (added calls))) with (added calls) in * by lia.
  split; intros [Hle Hn]; (split; [exact Hle|]).
  - intros task Hin Et. apply Hn. apply (in_map id) in Hin.
    rewrite E, Et in Hin. apply in_map_iff in Hin.
    destruct Hin as (a & Ea' & Ha). apply mint_inj in Ea'; [now subst | |exact Hk].
    apply B in Ha. lia.
  - intros Hin. apply (in_map mint) in Hin. rewrite <- E in Hin.
    apply in_map_iff in Hin. destruct Hin as (task & Et & Ht).
    exact (Hn task Ht Et).
Qed.

End Ledger.

(** * The further properties, tried *)

(** A task that depends on its own identity is never invoked: every call
    leaves [Inputs.cyclic] as it is. *)
Lemma DoAvailable_stalled_forever_witness :
  TaskList.poll 5 Inputs.cyclic tt = (Inputs.cyclic, tt).
Proof.
  apply (@DoAvailable_stalled_forever unit Inputs.cyclic tt).
  - repeat constructor.
  - intros task [<-|[]]. reflexivity.
Defined.

Lemma DoAvailable_drains_forward_list_witness :
  TaskList._task_list (TaskList.r_list (TaskList.DoAvailable Scenario.three tt))
    = [] /\
  TaskList.r_status (TaskList.DoAvailable Scenario.three tt)
    = TaskListStatus.complete.
Proof.
  destruct (@DoAvailable_drains_forward_list unit Scenario.three tt)
    as (_ & _ & H1 & _ & H2).
  - repeat split.
  - intros task Hin w'. repeat (destruct Hin as [<-|Hin]; [reflexivity|]).
    destruct Hin.
  - split; [exact H1 | exact H2].
Defined.

(** The first call on [Scenario.exchange] completes nothing: two tasks
    stay. *)
Lemma DoAvailable_Size_witness :
  TaskList.Size (TaskList.r_list (TaskList.DoAvailable Scenario.exchange 0))
  + Progress.completions (TaskList.r_trace (TaskList.DoAvailable Scenario.exchange 0))
  = 2.
Proof.
  apply (@DoAvailable_Size nat Scenario.exchange 0). repeat constructor.
Defined.

Lemma DoAvailable_invokes_in_list_order_witness :
  exists e,
    In e (TaskList.r_trace (TaskList.DoAvailable Scenario.chain tt)) /\
    TaskList.ev_task e =
      BaseTask.make (TaskID.Set_ 1) (@Scenario.always_complete unit)
                    TaskID.empty.
Proof.
  apply (proj2 (@DoAvailable_invokes_in_list_order unit Scenario.chain tt)).
  - left. reflexivity.
  - reflexivity.
Defined.

(** Identity 1, in the completed-set of [Scenario.exchange] after its third
    call, is still there four calls later. *)
Lemma completed_set_only_grows_witness :
  TaskID.has
    (TaskList._tasks_completed
       (fst (TaskList.poll 4 (fst (TaskList.poll 3 Scenario.exchange 0)) 3)))
    1 = true.
Proof.
  apply (proj1 (@completed_set_only_grows nat
                  (fst (TaskList.poll 3 Scenario.exchange 0)) 3 4)).
  reflexivity.
Defined.

(** The first barrier of [Inputs.two_barriers] is drained, the second is
    not: not ready. *)
Lemma IsReady_iff_witness :
  TaskList.IsReady Inputs.barrier_heap Inputs.two_barriers = Some false.
Proof.
  apply (proj2 (@IsReady_iff unit Inputs.barrier_heap Inputs.two_barriers)).
  exists [3], 7, [], Scenario.orphan. repeat split.
  - intros l [<-|[]]. exists (TaskList.init unit). split; reflexivity.
  - discriminate.
Defined.

Lemma pending_identities_distinct_witness :
  exists k,
    1 <= k <= Sched.added Fields.calls /\
    BaseTask.GetID
      (BaseTask.make (TaskID.Set_ 2) (@Scenario.always_complete unit)
                     (TaskID.Set_ 1))
    = Progress.mint k.
Proof.
  apply (proj1 (@pending_identities_distinct unit (TaskList.init unit) tt
                  Fields.calls (or_introl eq_refl)
                  ltac:(vm_compute; discriminate))).
  left. reflexivity.
Defined.

(** After [Fields.calls] the first task has been retired and the second is
    pending: identity 1 is in the completed-set, and no pending task
    carries it. *)
Lemma completed_set_is_retired_witness :
  1 <= Sched.added Fields.calls /\
  forall task,
    In task (TaskList._task_list
               (TaskList.d_list
                  (TaskList.execute (TaskList.start (TaskList.init unit) tt)
                                    Fields.calls))) ->
    BaseTask.GetID task <> Progress.mint 1.
Proof.
  apply (proj1 (@completed_set_is_retired unit (TaskList.init unit) tt
                  Fields.calls 1 (or_introl eq_refl)
                  ltac:(vm_compute; discriminate) (le_n 1))).
  reflexivity.
Defined.

Lemma Add_then_Get_witness :
  Container.Get "pressure"%string
    (Container.Add Fields.name (Fields.Field "density"%string 5)
                   (Fields.built Fields.plain))
  = Container.Get "pressure"%string (Fields.built Fields.plain).
Proof.
  apply (@Add_then_Get Fields.field Fields.field Fields.field Fields.name
           (Fields.Field "density"%string 5) (Fields.built Fields.plain)).
  discriminate.
Defined.

(** No variable of [Fields.plain] is labelled energy: [Get] throws. *)
Lemma Get_after_Adds_witness :
  Container.Get "energy"%string (Fields.built Fields.plain)
  = invalid_argument
      (String.append nl
         (String.append "energy"%string
            (String.append " array not found in Get()"%string nl))).
Proof.
  apply (proj2 (@Get_after_Adds Fields.field Fields.field Fields.field
                  Fields.name Fields.name Fields.name Fields.plain
                  "energy"%string)).
  intros var Hin. cbn in Hin. destruct Hin as [<-|[<-|[]]]; discriminate.
Defined.

(** With the label density added twice, [Index] finds the first. *)
Lemma Index_first_match_witness :
  Container.Get_index
    (Container.Index Fields.name "density"%string (Fields.built Fields.twice))
    (Fields.built Fields.twice)
  = Some Fields.density.
Proof.
  apply (@Index_first_match Fields.field Fields.field Fields.field Fields.name
           "density"%string (Fields.built Fields.twice)).
  - vm_compute. discriminate.
  - reflexivity.
Defined.

Lemma Get_agrees_with_Index_witness :
  Container.Get_index
    (Container.Index Fields.name "pressure"%string (Fields.built Fields.plain))
    (Fields.built Fields.plain)
  = Some Fields.pressure.
Proof.
  apply (proj2 (proj2 (proj2
           (@Get_agrees_with_Index Fields.field Fields.field Fields.field
              Fields.name Fields.name Fields.name Fields.plain
              "pressure"%string)))).
  - cbn. constructor; [intros [H|[]]; discriminate H|].
    constructor; [intros []|constructor].
  - reflexivity.
Defined.

(** With the label added twice the two lookups differ: [Get] by label
    returns the variable added last, [Get(Index(label))] the first. *)
Example Get_and_Index_differ :
  Container.Get "density"%string (Fields.built Fields.twice)
    = Returns (Fields.Field "density"%string 5) /\
  Container.Get_index
    (Container.Index Fields.name "density"%string (Fields.built Fields.twice))
    (Fields.built Fields.twice)
    = Some (Fields.Field "density"%string 0).
Proof. split; reflexivity. Qed.

Lemma eqb_compares_labels_witness :
  Container.eqb (Fields.built Fields.plain) (Fields.built Fields.shuffled)
  = true.
Proof.
  apply (proj1 (@eqb_compares_labels Fields.field Fields.field Fields.field
                  Fields.name Fields.name Fields.name
                  Fields.plain Fields.shuffled)).
  - intros l. cbn. tauto.
  - intros l. cbn. tauto.
  - intros l. cbn. tauto.
Defined.

(** [operator==] does not tell the kinds apart: a container with a cell
    variable a and a face variable b equals one with the cell variables a
    and b. *)
Example eqb_ignores_kinds :
  Container.eqb
    (Fields.built [Container.ACell _ _ (Fields.Field "a"%string 0);
                   Container.AFace _ _ (Fields.Field "b"%string 0)])
    (Fields.built [Container.ACell _ _ (Fields.Field "a"%string 0);
                   Container.ACell _ _ (Fields.Field "b"%string 0)])
  = true.
Proof. reflexivity. Qed.

(** Reading the unregistered label mass registers it. *)
Lemma InsertID_then_GetIDFromLabel_witness :
  FieldPropertiesInterface.GetIDFromLabel "mass"%string Fields.ids
    = (0%Z, FieldPropertiesInterface.InsertID "mass"%string 0%Z Fields.ids) /\
  StdMap.find "mass"%string
    (snd (FieldPropertiesInterface.GetIDFromLabel "mass"%string Fields.ids))
    = Some 0%Z.
Proof.
  apply (proj1 (proj2 (proj2
           (InsertID_then_GetIDFromLabel "mass"%string 0%Z Fields.ids)))).
  reflexivity.
Defined.

(** The labels aux and rho share the identifier 1: the lookup returns aux,
    the lesser. *)
Lemma GetLabelFromID_least_witness :
  StdMap.find (FieldPropertiesInterface.GetLabelFromID 1%Z Fields.ids)
              Fields.ids = Some 1%Z /\
  (FieldPropertiesInterface.GetLabelFromID 1%Z Fields.ids = "rho"%string \/
   OrderedTypeEx.String_as_OT.lt
     (FieldPropertiesInterface.GetLabelFromID 1%Z Fields.ids) "rho"%string).
Proof.
  apply (proj1 (proj2 (@GetLabelFromID_least 1%Z Fields.ids
                         ltac:(repeat apply StdMapFacts.sorted_assign;
                               constructor)))).
  reflexivity.
Defined.

(** * Progress, and the public bookkeeping operations *)

Section MorePublic.
Variable W : Type.
Import TaskList Sched Progress.
Local Abbreviation Task := (BaseTask.t W).
Local Abbreviation Event := (TaskList.Event W).
Local Abbreviation dep := (@BaseTask.GetDependency W).

Lemma replays_In (log : list Event) (w w' : W) (e : Event) :
  replays log w w' -> In e log ->
  exists w0, fst (BaseTask.call (ev_task e) w0) = ev_status e.
Proof.
  revert w. induction log as [|e0 log IH]; intros w R Hin; [contradiction|].
  cbn [replays] in R. destruct R as [Hs R]. destruct Hin as [<-|Hin].
  - now exists w.
  - exact (IH _ R Hin).
Qed.

Lemma completions_In (log : list Event) (e : Event) :
  In e log -> ev_status e = complete -> 1 <= completions log.
Proof.
  intros Hin Hs. unfold completions.
  assert (H : In e (filter (fun e0 => match ev_status e0 with
                                      | complete => true
                                      | incomplete => false
                                      end) log))
    by (apply filter_In; split; [exact Hin | now rewrite Hs]).
  destruct (filter _ log); [contradiction | cbn [length]; lia].
Qed.

(** X16: when some pending task has its dependency satisfied as the call
    starts and a body that returns [complete], the call of [DoAvailable]
    retires at least one task: fewer tasks are pending afterwards. *)
Theorem DoAvailable_progress (self : t W) (w : W) (task : Task) :
  clean self ->
  In task (_task_list self) ->
  TaskID.CheckDependencies (_tasks_completed self) (dep task) = true ->
  (forall w', fst (BaseTask.call task w') = complete) ->
  Size (r_list (DoAvailable self w)) < Size self.
Proof.
  intros C Hin D Hc.
  destruct (@scan_invokes W (_task_list self) (_tasks_completed self) w task
              Hin D) as (e & He & Et).
  rewrite <- DoAvailable_trace in He.
  destruct (@replays_In (r_trace (DoAvailable self w)) w
              (r_world (DoAvailable self w)) e
              (@scan_replays W (_task_list self) (_tasks_completed self) w) He)
    as (w0 & Hs).
  rewrite Et, Hc in Hs.
  pose proof (@completions_In (r_trace (DoAvailable self w)) e He (eq_sym Hs))
    as H1.
  destruct (Retire_counts (DoAvailable_Retire w C)) as [H2 _].
  unfold Size. lia.
Qed.

(** X17: [MarkTaskComplete(id)] changes the completed-set only, which then
    satisfies [id] and whatever it satisfied before; a pending task whose
    dependency is satisfied by the completed-set together with [id] is
    invoked by the next call of [DoAvailable]. *)
Theorem MarkTaskComplete_releases (self : t W) (idc : TaskID.t) (w : W) :
  _task_list (MarkTaskComplete self idc) = _task_list self /\
  _tasks_added (MarkTaskComplete self idc) = _tasks_added self /\
  _dependencies (MarkTaskComplete self idc) = _dependencies self /\
  TaskID.CheckDependencies (_tasks_completed (MarkTaskComplete self idc)) idc
    = true /\
  (forall d, TaskID.CheckDependencies (_tasks_completed self) d = true ->
     TaskID.CheckDependencies (_tasks_completed (MarkTaskComplete self idc)) d
       = true) /\
  (forall task, In task (_task_list self) ->
     TaskID.CheckDependencies
       (TaskID.SetFinished (_tasks_completed self) idc) (dep task) = true ->
     exists e,
       In e (r_trace (DoAvailable (MarkTaskComplete self idc) w)) /\
       ev_task e = task).
Proof.
  repeat split.
  - apply TaskIDFacts.CheckDependencies_iff, TaskIDFacts.subset_SetFinished_r.
  - intros d. apply TaskIDFacts.CheckDependencies_mono,
                    TaskIDFacts.subset_SetFinished_l.
  - intros task Hin D. rewrite DoAvailable_trace. now apply scan_invokes.
Qed.

(** X18: [ClearComplete] leaves no flagged task pending and is the
    identity on a list that has none: calling it twice, or right after
    [DoAvailable], changes nothing more. *)
Theorem ClearComplete_idempotent (self : t W) :
  clean (ClearComplete self) /\
  ClearComplete (ClearComplete self) = ClearComplete self /\
  (clean self -> ClearComplete self = self) /\
  (forall w, ClearComplete (r_list (DoAvailable self w))
             = r_list (DoAvailable self w)).
Proof.
  assert (K : forall l : t W, clean l -> ClearComplete l = l).
  { intros l C. unfold ClearComplete.
    rewrite (@filter_unflagged_clean W (_task_list l) C). now destruct l. }
  assert (C : clean (ClearComplete self)).
  { unfold clean, ClearComplete. cbn [_task_list]. apply Forall_forall.
    intros task H. apply filter_In in H. destruct H as [_ H].
    now apply negb_true_iff in H. }
  split; [exact C|]. split; [now apply K|]. split; [apply K|].
  intros w. apply K, clean_DoAvailable.
Qed.

End MorePublic.

(** Scenario C, rescued: once identity 5 is marked by hand, the orphan is
    invoked. *)
Lemma MarkTaskComplete_releases_witness :
  exists e,
    In e (TaskList.r_trace
            (TaskList.DoAvailable
               (TaskList.MarkTaskComplete Scenario.orphan (TaskID.Set_ 5)) tt)) /\
    TaskList.ev_task e =
      BaseTask.make (TaskID.Set_ 1) (@Scenario.always_complete unit)
                    (TaskID.Set_ 5).
Proof.
  apply (@MarkTaskComplete_releases unit Scenario.orphan (TaskID.Set_ 5) tt).
  - left. reflexivity.
  - reflexivity.
Defined.

Lemma DoAvailable_progress_witness :
  TaskList.Size (TaskList.r_list (TaskList.DoAvailable Scenario.chain tt))
  < TaskList.Size Scenario.chain.
Proof.
  apply (@DoAvailable_progress unit Scenario.chain tt
           (BaseTask.make (TaskID.Set_ 1) (@Scenario.always_complete unit)
                          TaskID.empty)).
  - repeat constructor.
  - left. reflexivity.
  - reflexivity.
  - intros w'. reflexivity.
Defined.

Lemma ClearComplete_idempotent_witness :
  TaskList.ClearComplete Scenario.exchange = Scenario.exchange.
Proof.
  apply (@ClearComplete_idempotent nat Scenario.exchange).
  repeat constructor.
Defined.
